(** * delete_devices.py: protection and resolution of block-device deletion

    Shallow embedding of [src/compellent/delete_devices.py] (a Python 2
    script) and proofs about its topology collector [disk_associations],
    the resolution phase of [delete_devices] and its executor loops.

    Python [str] values are [string]; Python sets of strings are
    [gset string]; the dictionary [disk_mappings] is a
    [gmap string (gset string)].  Iteration over a set or a dictionary
    follows [elements] / [map_to_list]: Python leaves that order
    unspecified, and no result below depends on it except the order of
    words inside a printed message. *)

From Stdlib Require Import Ascii String.
From stdpp Require Import base option list gmap sets strings.

#[local] Set Warnings "-clear-no-such-hyp".
Local Open Scope string_scope.

(** ** Python 2 [str] primitives *)

Module Str.

(** Character classes of the [re] module on byte strings (no LOCALE, no
    UNICODE flag). *)

Definition is_digit (c : ascii) : bool :=
  let n := nat_of_ascii c in ((48 <=? n) && (n <=? 57))%nat.

Definition is_alpha (c : ascii) : bool :=
  let n := nat_of_ascii c in
  (((65 <=? n) && (n <=? 90)) || ((97 <=? n) && (n <=? 122)))%nat.

(** [\w] is [[a-zA-Z0-9_]]. *)
Definition is_word (c : ascii) : bool :=
  is_alpha c || is_digit c || (nat_of_ascii c =? 95)%nat.

(** [\s], which is also what [str.strip()] removes: space, \t, \n, \v,
    \f, \r. *)
Definition is_space (c : ascii) : bool :=
  let n := nat_of_ascii c in ((n =? 32) || ((9 <=? n) && (n <=? 13)))%nat.

(** Longest prefix whose characters satisfy [p], and the rest. *)
Fixpoint span (p : ascii -> bool) (s : string) : string * string :=
  match s with
  | EmptyString => (EmptyString, EmptyString)
  | String c r =>
      if p c then let '(a, b) := span p r in (String c a, b)
      else (EmptyString, s)
  end.

(** A greedy [X+]: the longest non-empty run of [p]. *)
Definition many1 (p : ascii -> bool) (s : string) : option (string * string) :=
  match span p s with
  | (EmptyString, _) => None
  | (a, b) => Some (a, b)
  end.

(** A literal at the start of [s]; the rest of [s] after it. *)
Fixpoint lit (l s : string) : option string :=
  match l with
  | EmptyString => Some s
  | String a l' =>
      match s with
      | EmptyString => None
      | String b s' => if Ascii.eqb a b then lit l' s' else None
      end
  end.

(** One character of a class. *)
Definition one (p : ascii -> bool) (s : string) : option string :=
  match s with
  | String c r => if p c then Some r else None
  | EmptyString => None
  end.

Fixpoint lstrip (s : string) : string :=
  match s with
  | EmptyString => EmptyString
  | String c r => if is_space c then lstrip r else s
  end.

(** Drops trailing white space: a character is kept when it is not white
    space or when something is kept after it. *)
Fixpoint rstrip (s : string) : string :=
  match s with
  | EmptyString => EmptyString
  | String c r =>
      match rstrip r with
      | EmptyString => if is_space c then EmptyString else String c EmptyString
      | r' => String c r'
      end
  end.

(** [s.strip()] *)
Definition strip (s : string) : string := rstrip (lstrip s).

(** [s.splitlines()] on a byte string: lines end at "\n", "\r" or
    "\r\n"; the terminators are dropped, and text after the last
    terminator is a line only when it is not empty.  [cur] is the
    current line, reversed. *)
Fixpoint splitlines_aux (cur : list ascii) (pending : bool) (s : string)
  : list string :=
  match s with
  | EmptyString =>
      if pending then [string_of_list_ascii (rev cur)] else []
  | String c r =>
      if Ascii.eqb c "010"%char then
        string_of_list_ascii (rev cur) :: splitlines_aux [] false r
      else if Ascii.eqb c "013"%char then
        string_of_list_ascii (rev cur) ::
          match r with
          | String c' r' =>
              if Ascii.eqb c' "010"%char then splitlines_aux [] false r'
              else splitlines_aux [] false r
          | EmptyString => []
          end
      else splitlines_aux (c :: cur) true r
  end.

Definition splitlines (s : string) : list string := splitlines_aux [] false s.

(** [sep.join(l)] *)
Fixpoint join (sep : string) (l : list string) : string :=
  match l with
  | [] => EmptyString
  | [x] => x
  | x :: r => x ++ sep ++ join sep r
  end.

(** [sub in s] on strings: [sub] occurs somewhere in [s]. *)
Fixpoint contains (sub s : string) : bool :=
  match lit sub s with
  | Some _ => true
  | None =>
      match s with
      | EmptyString => false
      | String _ r => contains sub r
      end
  end.

End Str.

Import Str.

(** ** The host

    Everything the script learns from or does to the machine goes through
    four calls.  Each is a function of its argument: the script issues
    every command line and opens every control file at most once per
    loop, in a single sequential pass. *)

(** [subprocess.check_output(shlex.split(cmd))] either returns the text
    the command wrote, or raises [CalledProcessError] (the command ran
    and exited with a non-zero status), or raises something else before
    the command runs ([OSError] when the program is not installed). *)
Inductive outcome : Type :=
  | Output (text : string)
  | CalledProcessError
  | NotLaunched.

Record host : Type := Host {
  (** [subprocess.check_output(shlex.split(cmd))] *)
  check_output : string -> outcome;
  (** [subprocess.call(shlex.split(cmd))]: the exit status, or [None]
      when the program cannot be started. *)
  call : string -> option Z;
  (** [with open(path, 'w') as f: f.write(data)]: [false] when the open
      or the write raises [IOError]. *)
  write_file : string -> string -> bool;
  (** [raw_input(prompt)]: the line typed, or [None] at end of input. *)
  raw_input : string -> option string
}.

Inductive exn : Type :=
  | OSError (cmd : string)
  | KeyError (key : string)
  | IOError (path : string)
  | EOFError.

#[global] Instance exn_eq_dec : EqDecision exn.
Proof. solve_decision. Defined.

Inductive result (A : Type) : Type :=
  | Ok (a : A)
  | Raise (e : exn).
Arguments Ok {A} a.
Arguments Raise {A} e.

#[global] Instance result_ret : MRet result := fun A a => Ok a.
#[global] Instance result_bind : MBind result := fun A B f m =>
  match m with
  | Ok a => f a
  | Raise e => Raise e
  end.

(** A [for] loop whose body may raise: the first exception ends it. *)
Fixpoint for_each {A S : Type} (body : S -> A -> result S) (l : list A) (s : S)
  : result S :=
  match l with
  | [] => Ok s
  | x :: r =>
      match body s x with
      | Ok s' => for_each body r s'
      | Raise e => Raise e
      end
  end.

(** The [try: x = check_output(run) / except CalledProcessError: pass]
    blocks, with [x] preset to [str()]. *)
Definition query (h : host) (cmd : string) : result string :=
  match check_output h cmd with
  | Output text => Ok text
  | CalledProcessError => Ok ""
  | NotLaunched => Raise (OSError cmd)
  end.

(** ** The three regular expressions

    [pattern.match(s)] anchors at the start of [s] only.  In each
    pattern two adjacent repetitions range over disjoint character
    classes, so the greedy match is the only one and no backtracking
    changes a captured group. *)

(** [\s+[|`]-\s+\d+:\d+:\d+:\d+\s+(?P<disk>\w+)\s+\d+:\d+], group
    [disk]. *)
Definition re_multipath (line : string) : option string :=
  '(_, r) ← many1 is_space line;
  r ← one (fun c => Ascii.eqb c "|" || Ascii.eqb c "`") r;
  r ← lit "-" r;
  '(_, r) ← many1 is_space r;
  '(_, r) ← many1 is_digit r;
  r ← lit ":" r;
  '(_, r) ← many1 is_digit r;
  r ← lit ":" r;
  '(_, r) ← many1 is_digit r;
  r ← lit ":" r;
  '(_, r) ← many1 is_digit r;
  '(_, r) ← many1 is_space r;
  '(disk, r) ← many1 is_word r;
  '(_, r) ← many1 is_space r;
  '(_, r) ← many1 is_digit r;
  r ← lit ":" r;
  '(_, r) ← many1 is_digit r;
  Some disk.

(** The groups of [re_mounted]; a group that took no part in the match
    is [None]. *)
Record mounted_groups : Type := Groups {
  disk_group : option string;
  alias_group : option string
}.

(** First alternative: [/dev/(?!mapper)(?P<disk>[a-zA-Z]+)\d*]. *)
Definition re_mounted_disk (s : string) : option string :=
  r ← lit "/dev/" s;
  match lit "mapper" r with
  | Some _ => None
  | None => '(disk, _) ← many1 is_alpha r; Some disk
  end.

(** Second alternative: [/dev/mapper/(?P<alias>\w+)]. *)
Definition re_mounted_alias (s : string) : option string :=
  r ← lit "/dev/mapper/" s;
  '(alias, _) ← many1 is_word r;
  Some alias.

(** The whole pattern is the alternation of the two above, each in its
    own parentheses, tried in that order. *)
Definition re_mounted (s : string) : option mounted_groups :=
  match re_mounted_disk s with
  | Some d => Some (Groups (Some d) None)
  | None =>
      match re_mounted_alias s with
      | Some a => Some (Groups None (Some a))
      | None => None
      end
  end.

(** [/dev/(?P<disk>[a-zA-Z]+)\d*], group [disk]. *)
Definition re_lvm (s : string) : option string :=
  r ← lit "/dev/" s;
  '(disk, _) ← many1 is_alpha r;
  Some disk.

(** Python truth of a captured group: matched and not empty. *)
Definition truthy (g : option string) : option string :=
  match g with
  | Some (String c r) => Some (String c r)
  | _ => None
  end.

(** ** Topology collector: [disk_associations] *)

(** [d[key].add(x)] and [d[key] |= xs] on a key that is present.  Every
    use below follows an assignment to [d[key]]. *)
Definition add_to (key : string) (xs : gset string)
    (d : gmap string (gset string)) : gmap string (gset string) :=
  alter (fun s => s ∪ xs) key d.

(** Lines 66-68: the member disks found in the output of
    [multipath -ll device]. *)
Definition collect_members (device : string)
    (d : gmap string (gset string)) (line : string)
  : gmap string (gset string) :=
  match re_multipath line with
  | Some disk => add_to device {[disk]} d
  | None => d
  end.

(** Lines 45-68: one alias of the multipath listing. *)
Definition collect_alias (h : host) (d : gmap string (gset string))
    (line : string) : result (gmap string (gset string)) :=
  let device := strip line in
  let d := <[device := ∅]> d in
  multipath_info ← query h ("multipath -ll " ++ device);
  Ok (foldl (collect_members device) d (splitlines multipath_info)).

(** Lines 90-101: one source of the mount table. *)
Definition protect_mounted (d : gmap string (gset string)) (line : string)
  : gmap string (gset string) :=
  let device := strip line in
  match re_mounted device with
  | Some g =>
      match truthy (disk_group g) with
      | Some disk_match => add_to "protected" {[disk_match]} d
      | None =>
          match truthy (alias_group g) with
          | Some alias_match =>
              let d := add_to "protected" {[alias_match]} d in
              match d !! alias_match with
              | Some members => add_to "protected" members d
              | None => d
              end
          | None => d
          end
      end
  | None => d
  end.

(** Lines 118-121: one physical volume. *)
Definition protect_lvm (d : gmap string (gset string)) (line : string)
  : gmap string (gset string) :=
  let disk := strip line in
  match re_lvm disk with
  | Some name => add_to "protected" {[name]} d
  | None => d
  end.

Definition cmd_multipath : string := "multipath -l -v 1".
Definition cmd_findmnt : string :=
  "findmnt --noheadings --list --type ext2,ext3,ext4,xfs --output SOURCE".
Definition cmd_pvs : string := "pvs --noheadings --options pv_name".

(** Lines 33-68: the multipath phase, from an empty dictionary. *)
Definition collect_multipath (h : host) : result (gmap string (gset string)) :=
  multipath_devices ← query h cmd_multipath;
  for_each (collect_alias h) (splitlines multipath_devices) ∅.

Definition disk_associations (h : host) : result (gmap string (gset string)) :=
  disk_mappings ← collect_multipath h;
  let disk_mappings := <["protected" := ∅]> disk_mappings in
  mounted_devices ← query h cmd_findmnt;
  let disk_mappings :=
    foldl protect_mounted disk_mappings (splitlines mounted_devices) in
  lvm_disks ← query h cmd_pvs;
  Ok (foldl protect_lvm disk_mappings (splitlines lvm_disks)).

(** ** [delete_devices]: resolution phase (lines 136-165) *)

(** What the run shows or does, in order. *)
Inductive event : Type :=
  | Print (msg : string)
  | Call (cmd : string)
  | WriteFile (path data : string)
  | RawInput (prompt : string).

#[global] Instance event_eq_dec : EqDecision event.
Proof. solve_decision. Defined.

(** The two sets the caller passed in, both updated in place, and what
    has been printed so far. *)
Record request : Type := Request {
  disks : gset string;
  aliases : gset string;
  printed : list event
}.

Definition say (verbose : bool) (msg : string) : list event :=
  if verbose then [Print msg] else [].

(** The literal of lines 148-149 continues over the line break, so the
    message ends with the 24 blanks that indent line 149. *)
Definition expansion_message (alias disk : string) : string :=
  "Disk " ++ disk ++ " is a part of the multipath device " ++ alias
  ++ ". Adding the other disks from " ++ alias ++ "."
  ++ "                        ".

Definition refusal_message (selected : gset string) : string :=
  "Refusing to delete the following protected devices: "
  ++ join " " (elements selected).

(** Lines 145-151, for one [disk] and one entry of [device_groups]. *)
Definition expand_group (verbose : bool) (disk : string) (rq : request)
    (entry : string * gset string) : request :=
  let '(group, group_disks) := entry in
  if decide (disk ∈ group_disks) then
    {| disks := disks rq ∪ group_disks;
       aliases := aliases rq ∪ {[group]};
       printed := (printed rq ++ say verbose (expansion_message group disk))%list |}
  else rq.

(** Lines 143-151.  The outer loop runs over [list(disks)], the disks
    requested at entry, not over the set as it grows. *)
Definition sibling_expansion (device_groups : gmap string (gset string))
    (verbose : bool) (rq : request) : request :=
  foldl (fun rq disk =>
           foldl (expand_group verbose disk) rq (map_to_list device_groups))
        rq (elements (disks rq)).

(** Line 154. *)
Definition selected_protected_devices (protected_devices : gset string)
    (rq : request) : gset string :=
  (protected_devices ∩ disks rq) ∪ (protected_devices ∩ aliases rq).

(** Lines 154-162. *)
Definition protection_check (protected_devices : gset string)
    (verbose : bool) (rq : request) : request :=
  let selected := selected_protected_devices protected_devices rq in
  if decide (selected = ∅) then rq
  else
    {| disks := disks rq ∖ protected_devices;
       aliases := aliases rq ∖ protected_devices;
       printed := (printed rq ++ say verbose (refusal_message selected))%list |}.

(** Line 165: [disks |= device_groups[alias]]; the subscript raises
    [KeyError] for an alias that is not a key. *)
Definition lookup_members (device_groups : gmap string (gset string))
    (ds : gset string) (alias : string) : result (gset string) :=
  match device_groups !! alias with
  | Some members => Ok (ds ∪ members)
  | None => Raise (KeyError alias)
  end.

(** Lines 164-165. *)
Definition materialize (device_groups : gmap string (gset string))
    (rq : request) : result (gset string) :=
  for_each (lookup_members device_groups) (elements (aliases rq)) (disks rq).

(** A run is what was printed or done, and how it ended. *)
Definition run (A : Type) : Type := list event * result A.

(** Lines 141-162: the request as it leaves the protection check. *)
Definition filtered_request (device_groups : gmap string (gset string))
    (protected_devices : gset string) (verbose : bool)
    (req_disks req_aliases : gset string) : request :=
  protection_check protected_devices verbose
    (sibling_expansion device_groups verbose
       (Request req_disks req_aliases [])).

(** Lines 141-165 on the two structures [disk_associations] returned:
    the final disks and aliases. *)
Definition resolve (device_groups : gmap string (gset string))
    (protected_devices : gset string) (verbose : bool)
    (req_disks req_aliases : gset string) : run (gset string * gset string) :=
  let rq :=
    filtered_request device_groups protected_devices verbose
                     req_disks req_aliases in
  (printed rq,
   final_disks ← materialize device_groups rq; Ok (final_disks, aliases rq)).

(** ** [delete_devices]: executor (lines 167-207) *)

#[global] Instance run_ret : MRet run := fun A a => ([], Ok a).
#[global] Instance run_bind : MBind run := fun A B f m =>
  match m with
  | (tr, Ok a) => let '(tr', r) := f a in ((tr ++ tr')%list, r)
  | (tr, Raise e) => (tr, Raise e)
  end.

Definition emit (evs : list event) : run unit := (evs, Ok tt).
Definition throw {A : Type} (e : exn) : run A := ([], Raise e).

(** A [for] loop over actions. *)
Fixpoint for_all {A : Type} (body : A -> run unit) (l : list A) : run unit :=
  match l with
  | [] => mret tt
  | x :: r => body x ≫= fun _ => for_all body r
  end.

Definition flush_cmd (alias : string) : string := "multipath -f " ++ alias.
Definition flush_error (alias : string) : string :=
  "Error: cannot flush multipath device " ++ alias.
Definition state_file (disk : string) : string :=
  "/sys/block/" ++ disk ++ "/device/state".
Definition delete_file (disk : string) : string :=
  "/sys/block/" ++ disk ++ "/device/delete".
Definition newline : string := String "010"%char EmptyString.

(** Lines 171-175. *)
Definition flush_alias (h : host) (alias : string) : run unit :=
  let cmd := flush_cmd alias in
  emit [Call cmd] ≫= fun _ =>
  match call h cmd with
  | None => throw (OSError cmd)
  | Some exit_code =>
      if decide (exit_code ≠ 0%Z)
      then emit [Print (flush_error alias)]
      else mret tt
  end.

(** One [with open(path, 'w') as outfile: outfile.write(data)]. *)
Definition write_control (h : host) (path data : string) : run unit :=
  emit [WriteFile path data] ≫= fun _ =>
  if write_file h path data then mret tt else throw (IOError path).

(** Lines 179-182. *)
Definition delete_disk (h : host) (disk : string) : run unit :=
  write_control h (state_file disk) ("offline" ++ newline) ≫= fun _ =>
  write_control h (delete_file disk) ("1" ++ newline).

(** Lines 168-182, repeated as lines 193-207. *)
Definition flush_and_delete (h : host) (verbose : bool)
    (ds als : gset string) : run unit :=
  emit (say verbose ("Flushing the following multipath devices: "
                     ++ join " " (elements als))) ≫= fun _ =>
  for_all (flush_alias h) (elements als) ≫= fun _ =>
  emit (say verbose ("Deleting the following disks: "
                     ++ join " " (elements ds))) ≫= fun _ =>
  for_all (delete_disk h) (elements ds).

(** Lines 185-190. *)
Definition warning_message (ds als : gset string) : string :=
  "You have selected the following devices for removal:"
  ++ (if decide (als = ∅) then ""
      else newline ++ String "009"%char "Aliases: " ++ join " " (elements als))
  ++ (if decide (ds = ∅) then ""
      else newline ++ String "009"%char "Disks: " ++ join " " (elements ds))
  ++ newline ++ "Are you sure you want to delete these devices? (y/N) ".

(** [response.lower() == 'y'] *)
Definition is_yes (response : string) : bool :=
  if decide (response = "y") then true
  else if decide (response = "Y") then true else false.

(** Lines 167-207. *)
Definition execute (h : host) (assume_yes verbose : bool)
    (ds als : gset string) : run unit :=
  if assume_yes then flush_and_delete h verbose ds als
  else if decide (als = ∅ ∧ ds = ∅) then mret tt
  else
    let prompt := warning_message ds als in
    emit [RawInput prompt] ≫= fun _ =>
    match raw_input h prompt with
    | None => throw EOFError
    | Some response =>
        if is_yes response then flush_and_delete h verbose ds als
        else mret tt
    end.

(** [d.pop(key)] *)
Definition pop (key : string) (d : gmap string (gset string))
  : result (gset string * gmap string (gset string)) :=
  match d !! key with
  | Some v => Ok (v, delete key d)
  | None => Raise (KeyError key)
  end.

Definition lift {A : Type} (r : result A) : run A := ([], r).

Definition delete_devices (h : host) (req_disks req_aliases : gset string)
    (assume_yes verbose : bool) : run unit :=
  lift (disk_associations h) ≫= fun device_groups =>
  lift (pop "protected" device_groups) ≫= fun '(protected_devices, device_groups) =>
  resolve device_groups protected_devices verbose req_disks req_aliases
    ≫= fun '(final_disks, final_aliases) =>
  execute h assume_yes verbose final_disks final_aliases.

(** Lines 313-315 of [main]: [arg in multipath_devices] tests the
    argument against the raw text of the listing, which is a string. *)
Definition accepted_alias (multipath_devices arg : string) : bool :=
  contains arg multipath_devices.

(** ** Hosts used in the examples *)

(** A listing: every line ends with a newline. *)
Definition listing (l : list string) : string :=
  foldr (fun line rest => line ++ newline ++ rest) "" l.

(** A host that answers the scripted commands and exits with an error
    status on any other; flushes and control-file writes succeed. *)
Definition scripted (answers : list (string * string)) : host :=
  {| check_output := fun cmd =>
       match (list_to_map answers : gmap string string) !! cmd with
       | Some text => Output text
       | None => CalledProcessError
       end;
     call := fun _ => Some 0%Z;
     write_file := fun _ _ => true;
     raw_input := fun _ => Some "y" |}.

(** [h], except that [cmd] now prints [text]. *)
Definition with_output (h : host) (cmd text : string) : host :=
  {| check_output := fun c =>
       if decide (c = cmd) then Output text else check_output h c;
     call := call h;
     write_file := write_file h;
     raw_input := raw_input h |}.

(** [h], with every failing query replaced by one that prints nothing. *)
Definition quiet (h : host) : host :=
  {| check_output := fun c =>
       match check_output h c with
       | CalledProcessError => Output ""
       | o => o
       end;
     call := call h;
     write_file := write_file h;
     raw_input := raw_input h |}.

(** The command could be started. *)
Definition launched (h : host) (cmd : string) : bool :=
  match check_output h cmd with
  | NotLaunched => false
  | _ => true
  end.

Definition output_text (h : host) (cmd : string) : string :=
  match check_output h cmd with
  | Output text => text
  | _ => ""
  end.

(** The aliases of the multipath listing, as line 46 reads them. *)
Definition listed_aliases (h : host) : list string :=
  strip <$> splitlines (output_text h cmd_multipath).

(** Every command [disk_associations] issues when none fails to start. *)
Definition issued_commands (h : host) : list string :=
  (cmd_multipath
   :: ((fun device => "multipath -ll " ++ device) <$> listed_aliases h))
  ++ [cmd_findmnt; cmd_pvs].

(** All characters of [s] are in the class [p]. *)
Fixpoint all_chars (p : ascii -> bool) (s : string) : bool :=
  match s with
  | EmptyString => true
  | String c r => p c && all_chars p r
  end.

(** A string that is empty or starts outside the class [p]. *)
Definition stops (p : ascii -> bool) (s : string) : Prop :=
  match s with
  | EmptyString => True
  | String c _ => p c = false
  end.

(** The sample topology of the comments of [disk_associations]:
    [testvol2] over four paths, [testvol1] over two. *)
Definition sample_multipath : list (string * string) :=
  [ (cmd_multipath, listing ["testvol1"; "testvol2"]);
    ("multipath -ll testvol2", listing [
       "testvol2 (36000d31000d5f00000000000000000a6) dm-3 COMPELNT,Compellent Vol";
       "size=20G features='1 queue_if_no_path' hwhandler='0' wp=rw";
       "`-+- policy='round-robin 0' prio=0 status=active";
       "  |- 34:0:0:1 sdg 8:96  active ready running";
       "  |- 39:0:0:1 sdi 8:128 active ready running";
       "  |- 36:0:0:1 sdh 8:112 active ready running";
       "  `- 40:0:0:1 sdj 8:144 active ready running"]);
    ("multipath -ll testvol1", listing [
       "testvol1 (36000d31000d5f00000000000000000a5) dm-2 COMPELNT,Compellent Vol";
       "size=20G features='1 queue_if_no_path' hwhandler='0' wp=rw";
       "`-+- policy='round-robin 0' prio=0 status=active";
       "  |- 34:0:0:2 sdc 8:32  active ready running";
       "  `- 40:0:0:2 sdd 8:48  active ready running"]) ].

(** [testvol1] and [testvol2] are mounted, the root disk holds a
    partition and two physical volumes. *)
Definition host_sample : host :=
  scripted (sample_multipath ++
    [ (cmd_findmnt, listing ["/dev/mapper/vgROOT-lvROOT"; "/dev/sda2";
                             "/dev/mapper/testvol2"; "/dev/mapper/testvol1"]);
      (cmd_pvs, listing ["  /dev/sda3"; "  /dev/sdb1"]) ]).

(** Only [testvol1] is mounted. *)
Definition host_testvol1_mounted : host :=
  scripted (sample_multipath ++
    [ (cmd_findmnt, listing ["/dev/sda2"; "/dev/mapper/testvol1"]) ]).

(** Nothing of the multipath topology is mounted, but LVM reports one
    path of [testvol2], [/dev/sdg], as a physical volume. *)
Definition host_pv_on_path : host :=
  scripted (sample_multipath ++
    [ (cmd_findmnt, listing ["/dev/sda2"]);
      (cmd_pvs, listing ["  /dev/sdg"]) ]).

(** A mounted multipath volume whose alias has a dash in it. *)
Definition host_dashed_alias : host :=
  scripted
    [ (cmd_multipath, listing ["data-vol"]);
      ("multipath -ll data-vol", listing [
         "  |- 34:0:0:1 sdg 8:96  active ready running";
         "  `- 40:0:0:1 sdh 8:112 active ready running"]);
      (cmd_findmnt, listing ["/dev/mapper/data-vol"]) ].

(** A mounted NVMe partition, and a mounted device whose name starts
    with the letters of [mapper]. *)
Definition host_nvme : host :=
  scripted [ (cmd_findmnt, listing ["/dev/nvme0n1p2"]) ].

Definition host_mapperb : host :=
  scripted [ (cmd_findmnt, listing ["/dev/mapperb1"]) ].

(** No query tool is installed. *)
Definition host_no_tools : host :=
  {| check_output := fun _ => NotLaunched;
     call := fun _ => None;
     write_file := fun _ _ => true;
     raw_input := fun _ => None |}.

(** The sample host without the LVM tools. *)
Definition host_without_lvm : host :=
  {| check_output := fun cmd =>
       if decide (cmd = cmd_pvs) then NotLaunched
       else check_output host_sample cmd;
     call := call host_sample;
     write_file := write_file host_sample;
     raw_input := raw_input host_sample |}.

(** Every query tool exits with an error status. *)
Definition host_all_fail : host := scripted [].

(** Flushes work, every control file refuses the write. *)
Definition host_readonly_sysfs : host :=
  {| check_output := fun _ => CalledProcessError;
     call := fun _ => Some 0%Z;
     write_file := fun _ _ => false;
     raw_input := fun _ => Some "y" |}.

(** Every flush exits with status 1, control files accept the writes. *)
Definition host_busy_maps : host :=
  {| check_output := fun _ => CalledProcessError;
     call := fun _ => Some 1%Z;
     write_file := fun _ _ => true;
     raw_input := fun _ => Some "y" |}.

(** A multipath volume whose alias is the word [protected]. *)
Definition host_alias_protected : host :=
  scripted
    [ (cmd_multipath, listing ["protected"; "testvol1"]);
      ("multipath -ll protected", listing [
         "  |- 34:0:0:1 sdg 8:96  active ready running";
         "  `- 40:0:0:1 sdh 8:112 active ready running"]);
      ("multipath -ll testvol1", listing [
         "  |- 34:0:0:2 sdc 8:32  active ready running";
         "  `- 40:0:0:2 sdd 8:48  active ready running"]) ].

(** What the collector returns on that host. *)
Definition returned_alias_protected : gmap string (gset string) :=
  <["protected" := ∅]> (<["testvol1" := {["sdc"; "sdd"]}]> ∅).

(** Two dictionaries that differ at most under the key [protected]. *)
Definition agree (d d' : gmap string (gset string)) : Prop :=
  forall k, k ≠ "protected" -> d !! k = d' !! k.

(** The relationship map of the sample topology. *)
Definition sample_groups : gmap string (gset string) :=
  <["testvol2" := {["sdg"; "sdh"; "sdi"; "sdj"]}]>
    (<["testvol1" := {["sdc"; "sdd"]}]> ∅).

(** ** Reading the collector's inputs line by line *)

(** A non-empty string of the class [p]: what [p+] matches whole. *)
Definition tok (p : ascii -> bool) (s : string) : bool :=
  match s with
  | EmptyString => false
  | String _ _ => all_chars p s
  end.

(** The disks lines 66-68 find in the output of [multipath -ll alias]. *)
Definition members_of (h : host) (alias : string) : gset string :=
  list_to_set
    (omap re_multipath (splitlines (output_text h ("multipath -ll " ++ alias)))).

(** What line 96 adds for a line of the mount table, if anything. *)
Definition mounted_disk (line : string) : option string :=
  g ← re_mounted (strip line); truthy (disk_group g).

(** What line 98 adds for a line of the mount table, if anything. *)
Definition mounted_alias (line : string) : option string :=
  g ← re_mounted (strip line);
  match truthy (disk_group g) with
  | Some _ => None
  | None => truthy (alias_group g)
  end.

(** What line 121 adds for a line of the physical-volume listing. *)
Definition lvm_disk (line : string) : option string := re_lvm (strip line).

Definition mount_lines (h : host) : list string :=
  splitlines (output_text h cmd_findmnt).

Definition lvm_lines (h : host) : list string :=
  splitlines (output_text h cmd_pvs).

(** The events that act on a device. *)
Definition acts (e : event) : bool :=
  match e with
  | Call _ | WriteFile _ _ => true
  | Print _ | RawInput _ => false
  end.

(** ** [print_usage] and [main] (lines 210-338)

    [textwrap.dedent] is library code; the functions below take it as
    the parameter [dedent] and hand it the text the script hands it. *)

Module Cli.

(** The literal of lines 214-233, before [textwrap.dedent]: the first
    line break is escaped, and so is the last, which joins the blanks
    that indent the closing quotes to the last line. *)
Definition usage_source : string :=
  join newline
    [
      "        usage: delete_devices.py [-h] [-y] [-v] [-d sdX [sdX ...]] [-m alias [alias ...]]";
      "";
      "        Delete disks specified as arguments. Both standard block devices and";
      "        multipath device aliases are accepted as parameters.";
      "";
      "        Be very careful, as this can destroy data if the wrong device is specified!";
      "        There are protections in place to prevent the deletion of currently mounted";
      "        filesystems, but still use caution.";
      "";
      "        optional arguments:";
      "          -s sdX [sdX ...], --standard sdX [sdX ...]";
      "                            standard block devices to remove";
      "          -m alias [alias ...], --multipath alias [alias ...]";
      "                            multipath devices to remove";
      "          -h, --help        show this help message and exit";
      "          -y, --assume_yes  Do not prompt for confirmation and assume yes.";
      "                            Use caution, this can destroy your data!";
      "          -v, --verbose     Be verbose and print status messages" ]
  ++ "        ".

(** [print_usage()] *)
Definition print_usage (dedent : string -> string) : list event :=
  [Print (dedent usage_source)].

Definition blanks24 : string := "                        ".

(** The text of lines 303-310, after [format]. *)
Definition invalid_disk_source (arg : string) (valid_disks : gset string)
  : string :=
  blanks24 ++ "Invalid block device: " ++ arg ++ newline
  ++ blanks24 ++ "Choose from the following devices: "
  ++ join " " (elements valid_disks) ++ blanks24.

(** The text of lines 319-326, after [format]. *)
Definition invalid_alias_source (arg multipath_devices : string) : string :=
  blanks24 ++ "Invalid multipath alias: " ++ arg ++ newline
  ++ blanks24 ++ "Choose from the following aliases: "
  ++ join " " (splitlines multipath_devices) ++ blanks24.

(** What the process is started with: [os.getuid()],
    [os.listdir('/sys/block')] and [sys.argv]. *)
Record process : Type := Process {
  uid : Z;
  sys_block : list string;
  argv : list string
}.

(** The argument of [sys.exit]: nothing (status 0), a status, or a
    message for the standard error stream (status 1). *)
Inductive exit_arg : Type :=
  | ExitNone
  | ExitStatus (code : Z)
  | ExitMessage (msg : string).

(** How [main] ends: by [sys.exit], or by returning from or raising in
    the rest of its body. *)
Inductive ending : Type :=
  | Exit (arg : exit_arg)
  | Finished (r : result unit).

(** The variables of lines 245-250 and 269-270. *)
Record options : Type := Options {
  assume_yes : bool;
  verbose : bool;
  disks : gset string;
  aliases : gset string;
  standard : bool;
  multipath : bool
}.

Definition initial : options := Options false false ∅ ∅ false false.

(** The argument loop either goes on with new variables or leaves the
    program, after printing. *)
Inductive parsed : Type :=
  | Parsed (o : options)
  | Exits (printed : list event) (arg : exit_arg).

(** [disk[:2] == 'sd'] *)
Definition starts_sd (disk : string) : bool :=
  match lit "sd" disk with
  | Some _ => true
  | None => false
  end.

(** Lines 254-257. *)
Definition valid_disks (block_devices : list string) : gset string :=
  foldl (fun valid disk => if starts_sd disk then valid ∪ {[disk]} else valid)
        ∅ block_devices.

(** Lines 273-332: the body of the loop, for one argument. *)
Definition parse_arg (dedent : string -> string) (valid : gset string)
    (multipath_devices : string) (o : options) (arg : string) : parsed :=
  if bool_decide (arg ∈ ["-h"; "--help"]) then
    Exits (print_usage dedent) ExitNone
  else if bool_decide (arg ∈ ["-y"; "--assume_yes"]) then
    Parsed (Options true (verbose o) (disks o) (aliases o) false false)
  else if bool_decide (arg ∈ ["-v"; "--verbose"]) then
    Parsed (Options (assume_yes o) true (disks o) (aliases o) false false)
  else if bool_decide (arg ∈ ["-s"; "--standard"]) then
    Parsed (Options (assume_yes o) (verbose o) (disks o) (aliases o) true false)
  else if bool_decide (arg ∈ ["-m"; "--multipath"]) then
    Parsed (Options (assume_yes o) (verbose o) (disks o) (aliases o) false true)
  else if standard o then
    if bool_decide (arg ∈ valid) then
      Parsed (Options (assume_yes o) (verbose o) (disks o ∪ {[arg]})
                      (aliases o) (standard o) (multipath o))
    else Exits [] (ExitMessage (dedent (invalid_disk_source arg valid)))
  else if multipath o then
    if accepted_alias multipath_devices arg then
      Parsed (Options (assume_yes o) (verbose o) (disks o)
                      (aliases o ∪ {[arg]}) (standard o) (multipath o))
    else
      Exits [] (ExitMessage
                  (dedent (invalid_alias_source arg multipath_devices)))
  else
    Exits (Print ("Error: unrecognized argument " ++ arg)
           :: print_usage dedent)
          (ExitStatus 1).

(** Lines 272-332. *)
Fixpoint parse_args (dedent : string -> string) (valid : gset string)
    (multipath_devices : string) (args : list string) (o : options)
  : parsed :=
  match args with
  | [] => Parsed o
  | arg :: rest =>
      match parse_arg dedent valid multipath_devices o arg with
      | Parsed o' => parse_args dedent valid multipath_devices rest o'
      | Exits printed a => Exits printed a
      end
  end.

(** Lines 237-338. *)
Definition main (dedent : string -> string) (h : host) (p : process)
  : list event * ending :=
  if decide (uid p ≠ 0%Z) then
    ([], Exit (ExitMessage
                 "Insufficient privileges. Run this program as root."))
  else
    let valid := valid_disks (sys_block p) in
    match query h cmd_multipath with
    | Raise e => ([], Finished (Raise e))
    | Ok multipath_devices =>
        match parse_args dedent valid multipath_devices
                         (drop 1 (argv p)) initial with
        | Exits printed a => (printed, Exit a)
        | Parsed o =>
            if decide (disks o = ∅ ∧ aliases o = ∅) then
              ([], Exit (ExitMessage "Select at least one disk or alias."))
            else
              let '(tr, r) :=
                delete_devices h (disks o) (aliases o)
                               (assume_yes o) (verbose o) in
              (tr, Finished r)
        end
    end.

(** The words the loop reads as options. *)
Definition option_words : list string :=
  ["-h"; "--help"; "-y"; "--assume_yes"; "-v"; "--verbose";
   "-s"; "--standard"; "-m"; "--multipath"].

End Cli.

(** LVM reports the multipath device of [testvol2] as a physical
    volume; nothing of the topology is mounted. *)
Definition host_pv_on_mapper : host :=
  scripted (sample_multipath ++
    [ (cmd_findmnt, listing ["/dev/sda2"]);
      (cmd_pvs, listing ["  /dev/mapper/testvol2"; "  /dev/sda3"]) ]).

(** The sample host with an operator who answers [n]. *)
Definition host_operator_declines : host :=
  {| check_output := check_output host_sample;
     call := call host_sample;
     write_file := write_file host_sample;
     raw_input := fun _ => Some "n" |}.

(** A root process on a host whose [/sys/block] holds four SCSI disks,
    a CD drive and a device-mapper node. *)
Definition root_process (args : list string) : Cli.process :=
  Cli.Process 0 ["sda"; "sdb"; "sdc"; "sdz"; "sr0"; "dm-0"]
              ("delete_devices.py" :: args).

(** ** Resolution: what each phase computes *)

Section resolution.

Context (device_groups : gmap string (gset string)).
Context (protected_devices : gset string).
Context (verbose : bool).

Lemma expand_group_disks disk l rq x :
  x ∈ disks (foldl (expand_group verbose disk) rq l) ↔
  x ∈ disks rq ∨ ∃ g m, (g, m) ∈ l ∧ disk ∈ m ∧ x ∈ m.
Proof.
  revert rq. induction l as [|[g m] l IH]; intros rq; simpl.
  - set_solver.
  - rewrite IH. unfold expand_group. destruct (decide (disk ∈ m)); simpl.
    + set_solver.
    + set_solver.
Qed.

Lemma expand_group_aliases disk l rq a :
  a ∈ aliases (foldl (expand_group verbose disk) rq l) ↔
  a ∈ aliases rq ∨ ∃ m, (a, m) ∈ l ∧ disk ∈ m.
Proof.
  revert rq. induction l as [|[g m] l IH]; intros rq; simpl.
  - set_solver.
  - rewrite IH. unfold expand_group. destruct (decide (disk ∈ m)); simpl.
    + set_solver.
    + set_solver.
Qed.

Lemma expand_all_disks l ds rq x :
  x ∈ disks (foldl (fun rq disk => foldl (expand_group verbose disk) rq l) rq ds) ↔
  x ∈ disks rq ∨ ∃ d g m, d ∈ ds ∧ (g, m) ∈ l ∧ d ∈ m ∧ x ∈ m.
Proof.
  revert rq. induction ds as [|d ds IH]; intros rq; simpl.
  - set_solver.
  - rewrite IH, expand_group_disks. set_solver.
Qed.

Lemma expand_all_aliases l ds rq a :
  a ∈ aliases (foldl (fun rq disk => foldl (expand_group verbose disk) rq l) rq ds) ↔
  a ∈ aliases rq ∨ ∃ d m, d ∈ ds ∧ (a, m) ∈ l ∧ d ∈ m.
Proof.
  revert rq. induction ds as [|d ds IH]; intros rq; simpl.
  - set_solver.
  - rewrite IH, expand_group_aliases. set_solver.
Qed.

(** After sibling expansion the disks are those requested together with
    every member of every group that holds a requested disk. *)
Lemma sibling_expansion_disks rq x :
  x ∈ disks (sibling_expansion device_groups verbose rq) ↔
  x ∈ disks rq ∨
  ∃ d g m, d ∈ disks rq ∧ device_groups !! g = Some m ∧ d ∈ m ∧ x ∈ m.
Proof.
  unfold sibling_expansion. rewrite expand_all_disks.
  setoid_rewrite elem_of_elements. setoid_rewrite elem_of_map_to_list. done.
Qed.

(** ... and the aliases are those requested together with every group
    that holds a requested disk. *)
Lemma sibling_expansion_aliases rq a :
  a ∈ aliases (sibling_expansion device_groups verbose rq) ↔
  a ∈ aliases rq ∨
  ∃ d m, d ∈ disks rq ∧ device_groups !! a = Some m ∧ d ∈ m.
Proof.
  unfold sibling_expansion. rewrite expand_all_aliases.
  setoid_rewrite elem_of_elements. setoid_rewrite elem_of_map_to_list. done.
Qed.

(** Whether or not the subtraction of lines 161-162 runs, the sets that
    leave the protection check are the sets that entered it minus the
    protected devices. *)
Lemma protection_check_disks rq :
  disks (protection_check protected_devices verbose rq)
  = disks rq ∖ protected_devices.
Proof.
  unfold protection_check, selected_protected_devices.
  case_decide; simpl; set_solver.
Qed.

Lemma protection_check_aliases rq :
  aliases (protection_check protected_devices verbose rq)
  = aliases rq ∖ protected_devices.
Proof.
  unfold protection_check, selected_protected_devices.
  case_decide; simpl; set_solver.
Qed.

Lemma materialize_loop_ok l : ∀ ds,
  (∀ a, a ∈ l → is_Some (device_groups !! a)) →
  ∃ ds', for_each (lookup_members device_groups) l ds = Ok ds' ∧
    ∀ x, x ∈ ds' ↔
         x ∈ ds ∨ ∃ a m, a ∈ l ∧ device_groups !! a = Some m ∧ x ∈ m.
Proof.
  induction l as [|a l IH]; intros ds Hkeys; simpl.
  - exists ds. split; [done | set_solver].
  - destruct (Hkeys a) as [m Hm]; [set_solver |].
    unfold lookup_members at 1. rewrite Hm.
    destruct (IH (ds ∪ m)) as (ds' & -> & Hds'); [set_solver |].
    exists ds'. split; [done |]. intros x. rewrite Hds'. set_solver.
Qed.

Lemma materialize_loop_raise l : ∀ ds e,
  for_each (lookup_members device_groups) l ds = Raise e →
  ∃ a, e = KeyError a ∧ a ∈ l ∧ device_groups !! a = None.
Proof.
  induction l as [|a l IH]; intros ds e; simpl; [done |].
  unfold lookup_members at 1.
  destruct (device_groups !! a) as [m|] eqn:Hm.
  - intros H. destruct (IH _ _ H) as (a' & ? & ? & ?). exists a'. set_solver.
  - intros [= <-]. exists a. set_solver.
Qed.

Lemma materialize_loop_keys l : ∀ ds ds',
  for_each (lookup_members device_groups) l ds = Ok ds' →
  ∀ a, a ∈ l → is_Some (device_groups !! a).
Proof.
  induction l as [|a l IH]; intros ds ds'; simpl; [set_solver |].
  unfold lookup_members at 1.
  destruct (device_groups !! a) as [m|] eqn:Hm; [| done].
  intros H a' [->|Ha']%elem_of_cons; [by eexists | by eapply IH].
Qed.

End resolution.

Section resolve.

Context (device_groups : gmap string (gset string)).
Context (protected_devices : gset string).
Context (verbose : bool).
Context (req_disks req_aliases : gset string).

Local Abbreviation rq :=
  (filtered_request device_groups protected_devices verbose
                    req_disks req_aliases).

(** An alias leaves the protection check when it was requested, or owns
    a requested disk, and is not protected. *)
Lemma filtered_aliases a :
  a ∈ aliases rq ↔
  (a ∈ req_aliases ∨
   ∃ d m, d ∈ req_disks ∧ device_groups !! a = Some m ∧ d ∈ m)
  ∧ a ∉ protected_devices.
Proof.
  unfold filtered_request.
  rewrite protection_check_aliases, elem_of_difference,
    sibling_expansion_aliases. done.
Qed.

Lemma filtered_disks x :
  x ∈ disks rq ↔
  (x ∈ req_disks ∨
   ∃ d g m, d ∈ req_disks ∧ device_groups !! g = Some m ∧ d ∈ m ∧ x ∈ m)
  ∧ x ∉ protected_devices.
Proof.
  unfold filtered_request.
  rewrite protection_check_disks, elem_of_difference,
    sibling_expansion_disks. done.
Qed.

(** Resolution returns when every alias that left the protection check
    is a key, and then the final disks are the filtered disks and the
    members of the final aliases. *)
Lemma resolve_returns :
  (∀ a, a ∈ aliases rq → is_Some (device_groups !! a)) →
  ∃ fd,
    (resolve device_groups protected_devices verbose req_disks req_aliases).2
    = Ok (fd, aliases rq) ∧
    ∀ x, x ∈ fd ↔
         x ∈ disks rq ∨
         ∃ a m, a ∈ aliases rq ∧ device_groups !! a = Some m ∧ x ∈ m.
Proof.
  intros Hkeys. unfold resolve, materialize. simpl.
  destruct (materialize_loop_ok device_groups (elements (aliases rq)) (disks rq))
    as (fd & Hfd & Hchar).
  { intros a Ha. apply Hkeys. by apply elem_of_elements. }
  exists fd. rewrite Hfd. split; [done |].
  intros x. rewrite Hchar. by setoid_rewrite elem_of_elements.
Qed.

Lemma resolve_ok_inv fd fa :
  (resolve device_groups protected_devices verbose req_disks req_aliases).2
  = Ok (fd, fa) →
  fa = aliases rq ∧ ∀ a, a ∈ aliases rq → is_Some (device_groups !! a).
Proof.
  unfold resolve, materialize. simpl.
  destruct (for_each _ _ _) as [ds|e] eqn:Hloop; simpl; [| done].
  intros [= <- <-]. split; [done |].
  intros a Ha. eapply materialize_loop_keys; [exact Hloop |].
  by apply elem_of_elements.
Qed.

Lemma resolve_raise_inv e :
  (resolve device_groups protected_devices verbose req_disks req_aliases).2
  = Raise e →
  ∃ a, e = KeyError a ∧ a ∈ aliases rq ∧ device_groups !! a = None.
Proof.
  unfold resolve, materialize. simpl.
  destruct (for_each _ _ _) as [ds|e'] eqn:Hloop; simpl; [done |].
  intros [= <-]. apply materialize_loop_raise in Hloop as (a & ? & ? & ?).
  exists a. by rewrite <- elem_of_elements.
Qed.

(** No protected device is ever in the final alias set. *)
Lemma final_aliases_unprotected fd fa p :
  (resolve device_groups protected_devices verbose req_disks req_aliases).2
  = Ok (fd, fa) →
  p ∈ protected_devices → p ∉ fa.
Proof.
  intros [-> _]%resolve_ok_inv Hp. rewrite filtered_aliases. tauto.
Qed.

(** A protected device is in the final disk set exactly when it is a
    member of an alias that survived the protection check. *)
Lemma final_disks_protected fd fa p :
  (resolve device_groups protected_devices verbose req_disks req_aliases).2
  = Ok (fd, fa) →
  p ∈ protected_devices →
  p ∈ fd ↔ ∃ a m, a ∈ fa ∧ device_groups !! a = Some m ∧ p ∈ m.
Proof.
  intros Hres Hp. destruct (resolve_ok_inv _ _ Hres) as [-> Hkeys].
  destruct (resolve_returns Hkeys) as (fd' & Hres' & Hchar).
  rewrite Hres in Hres'. injection Hres' as <-.
  rewrite Hchar, filtered_disks. tauto.
Qed.

(** Whatever resolution returns, no alias comes without its member
    disks. *)
Lemma returned_aliases_have_members fd fa a :
  (resolve device_groups protected_devices verbose req_disks req_aliases).2
  = Ok (fd, fa) →
  a ∈ fa → ∃ members, device_groups !! a = Some members ∧ members ⊆ fd.
Proof.
  intros Hres Ha. destruct (resolve_ok_inv _ _ Hres) as [-> Hkeys].
  destruct (resolve_returns Hkeys) as (fd' & Hres' & Hchar).
  rewrite Hres in Hres'. injection Hres' as <-.
  destruct (Hkeys a Ha) as [m Hm]. exists m. split; [done |].
  intros x Hx. apply Hchar. right. by exists a, m.
Qed.

End resolve.

Lemma join_singleton sep x : join sep [x] = x.
Proof. done. Qed.

(** ** The claims about resolution *)

(** C1 (the code departs from it).  A device of the protected set must
    never be in the final disk or alias set.  On a host where LVM reports
    the path [/dev/sdg] of the unmounted multipath volume [testvol2] as a
    physical volume, [sdg] is protected; a request for the sibling path
    [sdh] pulls in [testvol2], the protection check removes [sdg], and
    lines 164-165 put it back: [sdg] is in the final disk set and its
    control files are written. *)
Theorem protected_path_is_deleted :
  disk_associations host_pv_on_path
  = Ok (<["protected" := {["sda"; "sdg"]}]> sample_groups)
  ∧ pop "protected" (<["protected" := {["sda"; "sdg"]}]> sample_groups)
    = Ok ({["sda"; "sdg"]}, sample_groups)
  ∧ resolve sample_groups {["sda"; "sdg"]} false {["sdh"]} ∅
    = ([], Ok ({["sdg"; "sdh"; "sdi"; "sdj"]}, {["testvol2"]}))
  ∧ "sdg" ∈ ({["sda"; "sdg"]} : gset string)
  ∧ "sdg" ∈ ({["sdg"; "sdh"; "sdi"; "sdj"]} : gset string)
  ∧ WriteFile "/sys/block/sdg/device/delete" ("1" ++ newline)
    ∈ (delete_devices host_pv_on_path {["sdh"]} ∅ true false).1.
Proof.
  split_and!.
  - vm_compute. reflexivity.
  - vm_compute. reflexivity.
  - vm_compute. reflexivity.
  - set_solver.
  - set_solver.
  - apply (bool_decide_unpack _). vm_compute. reflexivity.
Qed.

(** C2, as stated, fails when the alias is protected: on the sample
    topology with [testvol1] mounted, requesting its member [sdc] alone
    ends with no disk and no alias. *)
Lemma member_of_mounted_alias_is_dropped :
  disk_associations host_testvol1_mounted
  = Ok (<["protected" := {["sda"; "testvol1"; "sdc"; "sdd"]}]> sample_groups)
  ∧ sample_groups !! "testvol1" = Some {["sdc"; "sdd"]}
  ∧ "sdc" ∈ ({["sdc"; "sdd"]} : gset string)
  ∧ (resolve sample_groups {["sda"; "testvol1"; "sdc"; "sdd"]} false
             {["sdc"]} ∅).2 = Ok (∅, ∅)
  ∧ ¬ (({["sdc"; "sdd"]} : gset string) ⊆ ∅
       ∧ "testvol1" ∈ (∅ : gset string)).
Proof.
  split_and!.
  - vm_compute. reflexivity.
  - vm_compute. reflexivity.
  - set_solver.
  - vm_compute. reflexivity.
  - set_solver.
Qed.

(** C2 (amended).  For every disk [D] that is a member of alias [A] in
    the relationship map, where [A] is not in the protected set,
    resolving the request of [D] alone returns a final disk set that
    includes every member of [A] and a final alias set that contains
    [A]. *)
Theorem sibling_expansion_complete
    (device_groups : gmap string (gset string))
    (protected_devices : gset string) (verbose : bool)
    (D A : string) (members : gset string) :
  device_groups !! A = Some members →
  D ∈ members →
  A ∉ protected_devices →
  ∃ fd fa,
    (resolve device_groups protected_devices verbose {[D]} ∅).2 = Ok (fd, fa)
    ∧ members ⊆ fd ∧ A ∈ fa.
Proof.
  intros HA HD Hfree.
  destruct (resolve_returns device_groups protected_devices verbose {[D]} ∅)
    as (fd & Hres & Hchar).
  { intros a [[Ha|(d & m & _ & Hm & _)] _]%filtered_aliases;
      [set_solver | by eexists]. }
  exists fd, (aliases (filtered_request device_groups protected_devices
                                        verbose {[D]} ∅)).
  split; [exact Hres |].
  assert (A ∈ aliases (filtered_request device_groups protected_devices
                                        verbose {[D]} ∅)) as HAin.
  { apply filtered_aliases. split; [| done].
    right. exists D, members. set_solver. }
  split; [| done].
  intros x Hx. apply Hchar. right. by exists A, members.
Qed.

Lemma sibling_expansion_complete_witness :
  ∃ fd fa,
    (resolve sample_groups {["sda"]} false {["sdg"]} ∅).2 = Ok (fd, fa)
    ∧ ({["sdg"; "sdh"; "sdi"; "sdj"]} : gset string) ⊆ fd ∧ "testvol2" ∈ fa.
Proof.
  apply (sibling_expansion_complete sample_groups {["sda"]} false
           "sdg" "testvol2" {["sdg"; "sdh"; "sdi"; "sdj"]}).
  - vm_compute. reflexivity.
  - apply (bool_decide_unpack _). vm_compute. reflexivity.
  - apply (bool_decide_unpack _). vm_compute. reflexivity.
Defined.

(** C3.  When some protected device is among the disks or the aliases
    reached by sibling expansion, the check prints, when verbose, one
    message -- [Refusing to delete the following protected devices:]
    followed by the blocked identifiers, each once, separated by blanks,
    where the blocked identifiers are exactly the protected devices
    among those disks and aliases; it removes every protected device
    from both sets and keeps everything else; resolution then goes on
    with what is left and returns it.  In particular a request for one
    protected alias returns no disk and no alias, with the message that
    names the alias. *)
Theorem protected_request_is_filtered
    (device_groups : gmap string (gset string))
    (protected_devices : gset string) (verbose : bool)
    (req_disks req_aliases : gset string) :
  (∃ x, x ∈ protected_devices
        ∧ (x ∈ disks (sibling_expansion device_groups verbose
                        (Request req_disks req_aliases []))
           ∨ x ∈ aliases (sibling_expansion device_groups verbose
                            (Request req_disks req_aliases [])))) →
  (∃ blocked : list string,
     NoDup blocked
     ∧ (∀ x, x ∈ blocked ↔
             x ∈ protected_devices
             ∧ (x ∈ disks (sibling_expansion device_groups verbose
                             (Request req_disks req_aliases []))
                ∨ x ∈ aliases (sibling_expansion device_groups verbose
                                 (Request req_disks req_aliases []))))
     ∧ printed (filtered_request device_groups protected_devices verbose
                                 req_disks req_aliases)
       = (printed (sibling_expansion device_groups verbose
                     (Request req_disks req_aliases []))
          ++ (if verbose
              then [Print ("Refusing to delete the following protected devices: "
                           ++ join " " blocked)]
              else []))%list)
  ∧ disks (filtered_request device_groups protected_devices verbose
                            req_disks req_aliases)
    = disks (sibling_expansion device_groups verbose
               (Request req_disks req_aliases [])) ∖ protected_devices
  ∧ aliases (filtered_request device_groups protected_devices verbose
                              req_disks req_aliases)
    = aliases (sibling_expansion device_groups verbose
                 (Request req_disks req_aliases [])) ∖ protected_devices
  ∧ ((∀ a, a ∈ aliases (filtered_request device_groups protected_devices
                          verbose req_disks req_aliases) →
           is_Some (device_groups !! a)) →
     ∃ fd,
       resolve device_groups protected_devices verbose req_disks req_aliases
       = (printed (filtered_request device_groups protected_devices verbose
                                    req_disks req_aliases),
          Ok (fd, aliases (sibling_expansion device_groups verbose
                             (Request req_disks req_aliases []))
                  ∖ protected_devices))
       ∧ disks (sibling_expansion device_groups verbose
                  (Request req_disks req_aliases [])) ∖ protected_devices
         ⊆ fd)
  ∧ (∀ a, a ∈ protected_devices →
          resolve device_groups protected_devices true ∅ {[a]}
          = ([Print ("Refusing to delete the following protected devices: "
                     ++ a)],
             Ok (∅, ∅))).
Proof.
  intros (x0 & Hprot0 & Hreq0). split_and!.
  - exists (elements
              (selected_protected_devices protected_devices
                 (sibling_expansion device_groups verbose
                    (Request req_disks req_aliases [])))).
    split_and!.
    + apply NoDup_elements.
    + intros x. rewrite elem_of_elements.
      unfold selected_protected_devices.
      rewrite elem_of_union, !elem_of_intersection. tauto.
    + unfold filtered_request, protection_check.
      case_decide as Hnone; [| by destruct verbose].
      exfalso. unfold selected_protected_devices in Hnone.
      assert (x0 ∈ (∅ : gset string)) as Hin; [| by apply elem_of_empty in Hin].
      rewrite <- Hnone, elem_of_union, !elem_of_intersection. tauto.
  - unfold filtered_request. apply protection_check_disks.
  - unfold filtered_request. apply protection_check_aliases.
  - intros Hkeys.
    destruct (resolve_returns device_groups protected_devices verbose
                req_disks req_aliases Hkeys) as (fd & Hres & Hchar).
    exists fd. split.
    + unfold resolve in *. simpl in *. rewrite Hres. do 3 f_equal.
      unfold filtered_request. apply protection_check_aliases.
    + intros x Hx. apply Hchar. left.
      unfold filtered_request. by rewrite protection_check_disks.
  - intros a Ha. unfold resolve, filtered_request, sibling_expansion. simpl.
    rewrite elements_empty. simpl.
    unfold protection_check, selected_protected_devices. simpl.
    assert (protected_devices ∩ ∅ ∪ protected_devices ∩ {[a]}
            = ({[a]} : gset string)) as -> by set_solver.
    case_decide as Hne; [set_solver |]. simpl.
    unfold refusal_message, materialize. simpl.
    rewrite elements_singleton, join_singleton.
    assert ({[a]} ∖ protected_devices = (∅ : gset string)) as -> by set_solver.
    assert (∅ ∖ protected_devices = (∅ : gset string)) as -> by set_solver.
    rewrite elements_empty. done.
Qed.

Lemma protected_request_is_filtered_witness :
  resolve sample_groups {["sda"; "testvol1"; "sdc"; "sdd"]} true ∅
          {["testvol1"]}
  = ([Print "Refusing to delete the following protected devices: testvol1"],
     Ok (∅, ∅)).
Proof.
  refine (proj2 (proj2 (proj2 (proj2
    (protected_request_is_filtered sample_groups
       {["sda"; "testvol1"; "sdc"; "sdd"]} true ∅ {["testvol1"]} _))))
    "testvol1" _).
  - exists "testvol1". split.
    + apply (bool_decide_unpack _). vm_compute. reflexivity.
    + right. apply (bool_decide_unpack _). vm_compute. reflexivity.
  - apply (bool_decide_unpack _). vm_compute. reflexivity.
Defined.

(** C8.  When every alias that is left after the protection check is a
    key of the relationship map, resolution returns these aliases as the
    final alias set, and the final disk set holds every member disk of
    each of them. *)
Theorem final_aliases_are_materialized
    (device_groups : gmap string (gset string))
    (protected_devices : gset string) (verbose : bool)
    (req_disks req_aliases : gset string) :
  (∀ a, a ∈ aliases (filtered_request device_groups protected_devices
                       verbose req_disks req_aliases) →
        is_Some (device_groups !! a)) →
  ∃ fd,
    (resolve device_groups protected_devices verbose req_disks req_aliases).2
    = Ok (fd, aliases (filtered_request device_groups protected_devices
                         verbose req_disks req_aliases))
    ∧ ∀ a, a ∈ aliases (filtered_request device_groups protected_devices
                          verbose req_disks req_aliases) →
           ∃ members, device_groups !! a = Some members ∧ members ⊆ fd.
Proof.
  intros Hkeys.
  destruct (resolve_returns device_groups protected_devices verbose
              req_disks req_aliases Hkeys) as (fd & Hres & Hchar).
  exists fd. split; [exact Hres |].
  intros a Ha. destruct (Hkeys a Ha) as [m Hm].
  exists m. split; [done |].
  intros x Hx. apply Hchar. right. by exists a, m.
Qed.


Lemma final_aliases_are_materialized_witness :
  ∃ fd,
    (resolve sample_groups {["sda"; "sdc"]} false {["sdz"]}
             {["testvol1"; "testvol2"]}).2
    = Ok (fd, aliases (filtered_request sample_groups {["sda"; "sdc"]} false
                         {["sdz"]} {["testvol1"; "testvol2"]}))
    ∧ ∀ a, a ∈ aliases (filtered_request sample_groups {["sda"; "sdc"]} false
                          {["sdz"]} {["testvol1"; "testvol2"]}) →
           ∃ members, sample_groups !! a = Some members ∧ members ⊆ fd.
Proof.
  apply (final_aliases_are_materialized sample_groups {["sda"; "sdc"]} false
           {["sdz"]} {["testvol1"; "testvol2"]}).
  intros a Ha.
  assert (a ∈ ({["testvol1"; "testvol2"]} : gset string)) as Hin.
  { revert Ha. vm_compute. exact (fun H => H). }
  apply elem_of_union in Hin as [->%elem_of_singleton | ->%elem_of_singleton];
    vm_compute; eauto.
Defined.

(** C9.  Line 165 subscripts the relationship map without a guard.
    Resolution returns exactly when every alias left after the protection
    check is a key of the map; it ends in a [KeyError] exactly when some
    requested, unprotected alias is not a key.  Such a request passes the
    validation of [main], which tests the argument as a substring of the
    multipath listing: on the sample host, [-m testvol] is accepted and
    the run ends in [KeyError]. *)
Theorem materialization_needs_known_aliases
    (device_groups : gmap string (gset string))
    (protected_devices : gset string) (verbose : bool)
    (req_disks req_aliases : gset string) :
  ((∀ a, a ∈ aliases (filtered_request device_groups protected_devices
                        verbose req_disks req_aliases) →
         is_Some (device_groups !! a))
   ↔ ∃ fd fa,
       (resolve device_groups protected_devices verbose
                req_disks req_aliases).2 = Ok (fd, fa))
  ∧ ((∃ a, a ∈ req_aliases ∧ (a ∉ protected_devices)
           ∧ device_groups !! a = None)
     ↔ ∃ a,
         (resolve device_groups protected_devices verbose
                  req_disks req_aliases).2 = Raise (KeyError a)
         ∧ a ∈ req_aliases ∧ (a ∉ protected_devices)
         ∧ device_groups !! a = None)
  ∧ accepted_alias (output_text host_sample cmd_multipath) "testvol" = true
  ∧ (delete_devices host_sample ∅ {["testvol"]} true false).2
    = Raise (KeyError "testvol").
Proof.
  split_and!.
  - split.
    + intros Hkeys.
      destruct (resolve_returns device_groups protected_devices verbose
                  req_disks req_aliases Hkeys) as (fd & Hres & _).
      eauto.
    + intros (fd & fa & Hres). by eapply resolve_ok_inv.
  - split.
    + intros (a & Hreq & Hfree & Hnone).
      destruct (resolve device_groups protected_devices verbose
                  req_disks req_aliases).2 as [[fd fa]|e] eqn:Hres.
      * apply resolve_ok_inv in Hres as [_ Hkeys].
        destruct (Hkeys a) as [m Hm]; [| congruence].
        apply filtered_aliases. auto.
      * apply resolve_raise_inv in Hres as (b & -> & Hb & Hbnone).
        exists b. split; [done |].
        apply filtered_aliases in Hb as [[Hb | (d & m & _ & Hm & _)] Hbfree];
          [done | congruence].
    + intros (a & _ & ? & ? & ?). eauto.
  - vm_compute. reflexivity.
  - vm_compute. reflexivity.
Qed.

(** ** The executor *)

#[local] Arguments flush_cmd : simpl never.
#[local] Arguments flush_error : simpl never.
#[local] Arguments state_file : simpl never.
#[local] Arguments delete_file : simpl never.

Section executor.

Context (h : host).

Lemma for_all_cons {A : Type} (body : A → run unit) x l :
  for_all body (x :: l) = body x ≫= fun _ => for_all body l.
Proof. done. Qed.

(** The flush loop never stops at a non-zero exit status: it ends
    normally as soon as every flush command can be started, every alias
    has been flushed, and every failed flush has been reported. *)
Lemma flush_loop_completes l :
  (∀ a, a ∈ l → is_Some (call h (flush_cmd a))) →
  ∃ tr,
    for_all (flush_alias h) l = (tr, Ok tt)
    ∧ (∀ a, a ∈ l → Call (flush_cmd a) ∈ tr)
    ∧ (∀ a, a ∈ l → call h (flush_cmd a) ≠ Some 0%Z →
            Print (flush_error a) ∈ tr).
Proof.
  induction l as [|a l IH]; intros Hcall.
  - exists []. split_and!; [done | set_solver | set_solver].
  - destruct IH as (tr & Hloop & Hcalls & Hprints); [set_solver |].
    destruct (Hcall a) as [code Hcode]; [set_solver |].
    rewrite for_all_cons, Hloop. unfold flush_alias. simpl. rewrite Hcode.
    destruct (decide (code ≠ 0%Z)) as [Hnz|Hz]; simpl.
    + eexists. split_and!; [done | |].
      * intros b [->|Hb]%elem_of_cons; [set_solver |].
        specialize (Hcalls b Hb). set_solver.
      * intros b [->|Hb]%elem_of_cons Hbad; [unfold flush_error; set_solver |].
        specialize (Hprints b Hb Hbad). set_solver.
    + eexists. split_and!; [done | |].
      * intros b [->|Hb]%elem_of_cons; [set_solver |].
        specialize (Hcalls b Hb). set_solver.
      * intros b [->|Hb]%elem_of_cons Hbad.
        -- exfalso. apply Hbad. rewrite Hcode. f_equal.
           destruct (decide (code = 0%Z)); [done | by destruct Hz].
        -- specialize (Hprints b Hb Hbad). set_solver.
Qed.

(** The delete loop, when no write fails. *)
Lemma delete_loop_completes l :
  (∀ d, d ∈ l →
        write_file h (state_file d) ("offline" ++ newline) = true
        ∧ write_file h (delete_file d) ("1" ++ newline) = true) →
  ∃ tr,
    for_all (delete_disk h) l = (tr, Ok tt)
    ∧ ∀ d, d ∈ l →
        WriteFile (state_file d) ("offline" ++ newline) ∈ tr
        ∧ WriteFile (delete_file d) ("1" ++ newline) ∈ tr.
Proof.
  induction l as [|d l IH]; intros Hw.
  - exists []. split; [done | set_solver].
  - destruct IH as (tr & Hloop & Hwrites); [set_solver |].
    destruct (Hw d) as [Hs Hd]; [set_solver |].
    rewrite for_all_cons, Hloop. unfold delete_disk, write_control. simpl.
    rewrite Hs. simpl. rewrite Hd. simpl.
    eexists. split; [done |].
    intros d' [->|Hd']%elem_of_cons; [set_solver |].
    destruct (Hwrites d' Hd'). set_solver.
Qed.

End executor.

(** C7, as stated, fails for the control-file writes: lines 179-182
    have no handler, so the first write that fails ends the run with
    [IOError]; nothing is reported and the remaining disk [sdh] of the
    resolved set is never touched. *)
Lemma failed_write_ends_the_run :
  delete_devices host_readonly_sysfs {["sdg"; "sdh"]} ∅ true false
  = ([WriteFile (state_file "sdg") ("offline" ++ newline)],
     Raise (IOError (state_file "sdg")))
  ∧ (WriteFile (state_file "sdh") ("offline" ++ newline)
     ∉ (delete_devices host_readonly_sysfs {["sdg"; "sdh"]} ∅ true false).1)
  ∧ (WriteFile (delete_file "sdh") ("1" ++ newline)
     ∉ (delete_devices host_readonly_sysfs {["sdg"; "sdh"]} ∅ true false).1).
Proof.
  split_and!.
  - vm_compute. reflexivity.
  - apply (bool_decide_unpack _). vm_compute. reflexivity.
  - apply (bool_decide_unpack _). vm_compute. reflexivity.
Qed.

(** C7 (amended).  A multipath flush that exits with a non-zero status
    is not fatal: provided each flush command can be started, every alias
    of the resolved set is flushed and every failed flush is reported;
    and when no control-file write fails, the run ends normally with both
    writes issued for every disk of the resolved set. *)
Theorem failed_flush_is_not_fatal (h : host) (verbose : bool)
    (ds als : gset string) :
  (∀ a, a ∈ als → is_Some (call h (flush_cmd a))) →
  ∃ tr r,
    execute h true verbose ds als = (tr, r)
    ∧ (∀ a, a ∈ als → Call (flush_cmd a) ∈ tr)
    ∧ (∀ a, a ∈ als → call h (flush_cmd a) ≠ Some 0%Z →
            Print (flush_error a) ∈ tr)
    ∧ ((∀ d, d ∈ ds →
             write_file h (state_file d) ("offline" ++ newline) = true
             ∧ write_file h (delete_file d) ("1" ++ newline) = true) →
       r = Ok tt
       ∧ ∀ d, d ∈ ds →
           WriteFile (state_file d) ("offline" ++ newline) ∈ tr
           ∧ WriteFile (delete_file d) ("1" ++ newline) ∈ tr).
Proof.
  intros Hcall.
  destruct (flush_loop_completes h (elements als))
    as (tr1 & Hflush & Hcalls & Hprints).
  { intros a Ha. apply Hcall. by apply elem_of_elements. }
  unfold execute, flush_and_delete. simpl. rewrite Hflush. simpl.
  destruct (for_all (delete_disk h) (elements ds)) as [tr2 r2] eqn:Hdel.
  simpl. eexists _, _. split; [reflexivity |]. split_and!.
  - intros a Ha%elem_of_elements. specialize (Hcalls a Ha). set_solver.
  - intros a Ha%elem_of_elements Hbad. specialize (Hprints a Ha Hbad).
    set_solver.
  - intros Hw.
    destruct (delete_loop_completes h (elements ds)) as (tr2' & Hdel' & Hwrites).
    { intros d Hd. apply Hw. by apply elem_of_elements. }
    rewrite Hdel in Hdel'. injection Hdel' as <- ->. split; [done |].
    intros d Hd%elem_of_elements. destruct (Hwrites d Hd). set_solver.
Qed.

Lemma failed_flush_is_not_fatal_witness :
  ∃ tr r,
    execute host_busy_maps true false {["sdc"; "sdd"]} {["testvol1"]} = (tr, r)
    ∧ (∀ a, a ∈ ({["testvol1"]} : gset string) → Call (flush_cmd a) ∈ tr)
    ∧ (∀ a, a ∈ ({["testvol1"]} : gset string) →
            call host_busy_maps (flush_cmd a) ≠ Some 0%Z →
            Print (flush_error a) ∈ tr)
    ∧ ((∀ d, d ∈ ({["sdc"; "sdd"]} : gset string) →
             write_file host_busy_maps (state_file d) ("offline" ++ newline)
             = true
             ∧ write_file host_busy_maps (delete_file d) ("1" ++ newline)
               = true) →
       r = Ok tt
       ∧ ∀ d, d ∈ ({["sdc"; "sdd"]} : gset string) →
           WriteFile (state_file d) ("offline" ++ newline) ∈ tr
           ∧ WriteFile (delete_file d) ("1" ++ newline) ∈ tr).
Proof.
  apply (failed_flush_is_not_fatal host_busy_maps false
           {["sdc"; "sdd"]} {["testvol1"]}).
  intros a _. simpl. eauto.
Defined.

(** ** The collector *)

Lemma query_launched h cmd :
  launched h cmd = true → query h cmd = Ok (output_text h cmd).
Proof. unfold launched, query, output_text. by destruct (check_output h cmd). Qed.

Lemma query_not_launched h cmd :
  launched h cmd = false → query h cmd = Raise (OSError cmd).
Proof. unfold launched, query. by destruct (check_output h cmd). Qed.

Lemma query_quiet h cmd : query (quiet h) cmd = query h cmd.
Proof. unfold query, quiet. simpl. by destruct (check_output h cmd). Qed.

Lemma for_each_ext {A S : Type} (f g : S → A → result S) l :
  (∀ s x, f s x = g s x) → ∀ s, for_each f l s = for_each g l s.
Proof.
  intros Hfg. induction l as [|x l IH]; intros s; simpl; [done |].
  rewrite Hfg. destruct (g s x); [apply IH | done].
Qed.

(** A query that exits with an error status leaves the collector where
    an empty answer would. *)
Lemma disk_associations_quiet h :
  disk_associations (quiet h) = disk_associations h.
Proof.
  unfold disk_associations, collect_multipath. rewrite !query_quiet.
  destruct (query h cmd_multipath) as [text|e]; simpl; [| done].
  rewrite (for_each_ext (collect_alias (quiet h)) (collect_alias h)); [done |].
  intros d line. unfold collect_alias. by rewrite query_quiet.
Qed.

Lemma collect_aliases_launched h l : ∀ d,
  forallb (launched h) ((fun device => "multipath -ll " ++ device) <$>
                        (strip <$> l)) = true →
  ∃ d', for_each (collect_alias h) l d = Ok d'.
Proof.
  induction l as [|line l IH]; intros d; simpl; [by eexists |].
  intros [Hline Hl]%andb_prop.
  unfold collect_alias at 1. rewrite (query_launched _ _ Hline). simpl.
  by apply IH.
Qed.

Lemma collect_aliases_not_launched h l : ∀ d,
  forallb (launched h) ((fun device => "multipath -ll " ++ device) <$>
                        (strip <$> l)) = false →
  ∃ cmd,
    for_each (collect_alias h) l d = Raise (OSError cmd)
    ∧ launched h cmd = false.
Proof.
  induction l as [|line l IH]; intros d; simpl; [done |].
  unfold collect_alias at 1.
  destruct (launched h ("multipath -ll " ++ strip line)) eqn:Hline; simpl.
  - rewrite (query_launched _ _ Hline). simpl. apply IH.
  - intros _. rewrite (query_not_launched _ _ Hline). simpl. by eexists.
Qed.

Lemma collect_multipath_launched h :
  forallb (launched h) (issued_commands h) = true →
  ∃ d, collect_multipath h = Ok d.
Proof.
  unfold issued_commands, listed_aliases. simpl.
  intros [Hm Hrest]%andb_prop.
  rewrite forallb_app in Hrest. apply andb_prop in Hrest as [Hll _].
  unfold collect_multipath. rewrite (query_launched _ _ Hm). simpl.
  by apply collect_aliases_launched.
Qed.

(** The collector ends with [OSError] as soon as one of the commands it
    issues cannot be started. *)
Lemma disk_associations_not_launched h :
  forallb (launched h) (issued_commands h) = false →
  ∃ cmd, disk_associations h = Raise (OSError cmd) ∧ launched h cmd = false.
Proof.
  unfold issued_commands, listed_aliases, disk_associations,
    collect_multipath. simpl.
  destruct (launched h cmd_multipath) eqn:Hm; simpl.
  2: { intros _. rewrite (query_not_launched _ _ Hm). simpl. by eexists. }
  rewrite (query_launched _ _ Hm). simpl. rewrite forallb_app.
  destruct (forallb _ (_ <$> _)) eqn:Hll; simpl.
  2: { intros _.
       destruct (collect_aliases_not_launched h _ ∅ Hll) as (cmd & -> & Hc).
       simpl. by eexists. }
  destruct (collect_aliases_launched h _ ∅ Hll) as (d & ->). simpl.
  destruct (launched h cmd_findmnt) eqn:Hf; simpl.
  2: { intros _. rewrite (query_not_launched _ _ Hf). simpl. by eexists. }
  rewrite (query_launched _ _ Hf). simpl.
  destruct (launched h cmd_pvs) eqn:Hp; simpl; [done |].
  intros _. rewrite (query_not_launched _ _ Hp). simpl. by eexists.
Qed.

(** What the collector returns when every command it issues starts. *)
Lemma disk_associations_launched h :
  forallb (launched h) (issued_commands h) = true →
  ∃ d,
    collect_multipath h = Ok d
    ∧ disk_associations h
      = Ok (foldl protect_lvm
              (foldl protect_mounted (<["protected" := ∅]> d)
                 (splitlines (output_text h cmd_findmnt)))
              (splitlines (output_text h cmd_pvs))).
Proof.
  intros Hall. destruct (collect_multipath_launched h Hall) as [d Hd].
  exists d. split; [done |].
  unfold issued_commands in Hall. simpl in Hall.
  apply andb_prop in Hall as [_ Hrest].
  rewrite forallb_app in Hrest. apply andb_prop in Hrest as [_ Htail].
  simpl in Htail. apply andb_prop in Htail as [Hf Hp].
  apply andb_prop in Hp as [Hp _].
  unfold disk_associations. rewrite Hd. simpl.
  rewrite (query_launched _ _ Hf). simpl.
  by rewrite (query_launched _ _ Hp).
Qed.

Lemma add_to_lookup key xs (d : gmap string (gset string)) k :
  add_to key xs d !! k
  = if decide (key = k) then (fun s => s ∪ xs) <$> d !! k else d !! k.
Proof. unfold add_to. rewrite lookup_alter. case_decide; by subst. Qed.

Lemma add_to_lookup_ne key xs (d : gmap string (gset string)) k :
  key ≠ k → add_to key xs d !! k = d !! k.
Proof. intros. rewrite add_to_lookup. by case_decide. Qed.

Lemma add_to_lookup_eq key xs (d : gmap string (gset string)) s :
  d !! key = Some s → add_to key xs d !! key = Some (s ∪ xs).
Proof. intros Hs. rewrite add_to_lookup. case_decide; [| done]. by rewrite Hs. Qed.

Lemma add_to_dom key xs (d : gmap string (gset string)) :
  dom (add_to key xs d) = dom d.
Proof. unfold add_to. by rewrite dom_alter_L. Qed.

(** Both protection loops only ever touch the key [protected], and only
    by adding to its set. *)
Section protection_steps.

Context (step : gmap string (gset string) → string → gmap string (gset string)).
Hypothesis step_other :
  ∀ d line k, k ≠ "protected" → step d line !! k = d !! k.
Hypothesis step_grows :
  ∀ d line p, d !! "protected" = Some p →
    ∃ p', step d line !! "protected" = Some p' ∧ p ⊆ p'.

Lemma steps_other l : ∀ d k,
  k ≠ "protected" → foldl step d l !! k = d !! k.
Proof.
  induction l as [|line l IH]; intros d k Hk; simpl; [done |].
  by rewrite IH, step_other.
Qed.

Lemma steps_grow l : ∀ d p,
  d !! "protected" = Some p →
  ∃ p', foldl step d l !! "protected" = Some p' ∧ p ⊆ p'.
Proof.
  induction l as [|line l IH]; intros d p Hp; simpl.
  - by exists p.
  - destruct (step_grows d line p Hp) as (p1 & Hp1 & Hsub1).
    destruct (IH _ _ Hp1) as (p2 & Hp2 & Hsub2).
    exists p2. split; [done | set_solver].
Qed.

End protection_steps.

Lemma protect_mounted_other d line k :
  k ≠ "protected" → protect_mounted d line !! k = d !! k.
Proof.
  intros Hk. unfold protect_mounted.
  destruct (re_mounted (strip line)) as [g|]; [| done].
  destruct (truthy (disk_group g)) as [dm|].
  { by rewrite add_to_lookup_ne. }
  destruct (truthy (alias_group g)) as [am|]; [| done].
  destruct (add_to "protected" {[am]} d !! am) as [m|];
    by rewrite ?add_to_lookup_ne.
Qed.

Lemma protect_mounted_grows d line p :
  d !! "protected" = Some p →
  ∃ p', protect_mounted d line !! "protected" = Some p' ∧ p ⊆ p'.
Proof.
  intros Hp. unfold protect_mounted.
  destruct (re_mounted (strip line)) as [g|]; [| by exists p].
  destruct (truthy (disk_group g)) as [dm|].
  { eexists. split; [by apply add_to_lookup_eq | set_solver]. }
  destruct (truthy (alias_group g)) as [am|]; [| by exists p].
  destruct (add_to "protected" {[am]} d !! am) as [m|].
  - eexists. split; [by apply add_to_lookup_eq, add_to_lookup_eq | set_solver].
  - eexists. split; [by apply add_to_lookup_eq | set_solver].
Qed.

Lemma protect_lvm_other d line k :
  k ≠ "protected" → protect_lvm d line !! k = d !! k.
Proof.
  intros Hk. unfold protect_lvm.
  destruct (re_lvm (strip line)); [by rewrite add_to_lookup_ne | done].
Qed.

Lemma protect_lvm_grows d line p :
  d !! "protected" = Some p →
  ∃ p', protect_lvm d line !! "protected" = Some p' ∧ p ⊆ p'.
Proof.
  intros Hp. unfold protect_lvm.
  destruct (re_lvm (strip line)); [| by exists p].
  eexists. split; [by apply add_to_lookup_eq | set_solver].
Qed.

(** C6, as stated, fails when a query tool is absent: only
    [CalledProcessError] is caught, so the collector ends with the
    [OSError] of the first command that cannot be started -- on a host
    with no such tools at the first query, on the sample host without
    LVM at the last. *)
Lemma absent_tool_is_fatal :
  disk_associations host_no_tools = Raise (OSError cmd_multipath)
  ∧ disk_associations host_without_lvm = Raise (OSError cmd_pvs).
Proof. split; vm_compute; reflexivity. Qed.

(** C6 (amended).  When every command the collector issues can be
    started, the collector returns its dictionary, with the protected
    set under the key [protected]; a query that ran and exited with an
    error status counts as a query that printed nothing. *)
Theorem collector_survives_failed_queries (h : host) :
  forallb (launched h) (issued_commands h) = true →
  ∃ dm prot,
    disk_associations h = Ok dm
    ∧ pop "protected" dm = Ok (prot, delete "protected" dm)
    ∧ disk_associations (quiet h) = Ok dm.
Proof.
  intros Hall. destruct (disk_associations_launched h Hall) as (d & _ & Hdm).
  destruct (steps_grow protect_mounted protect_mounted_other protect_mounted_grows
              (splitlines (output_text h cmd_findmnt))
              (<["protected" := ∅]> d) ∅) as (p1 & Hp1 & _).
  { apply lookup_insert_eq. }
  destruct (steps_grow protect_lvm protect_lvm_other protect_lvm_grows
              (splitlines (output_text h cmd_pvs)) _ _ Hp1) as (p2 & Hp2 & _).
  eexists _, p2. split; [exact Hdm |]. split.
  - unfold pop. by rewrite Hp2.
  - by rewrite disk_associations_quiet.
Qed.

Lemma collector_survives_failed_queries_witness :
  ∃ dm prot,
    disk_associations host_all_fail = Ok dm
    ∧ pop "protected" dm = Ok (prot, delete "protected" dm)
    ∧ disk_associations (quiet host_all_fail) = Ok dm.
Proof.
  apply (collector_survives_failed_queries host_all_fail).
  vm_compute. reflexivity.
Defined.

(** ** Matching the mount table *)

Lemma lit_app l s : lit l (l ++ s) = Some s.
Proof.
  induction l as [|a l IH]; simpl; [done |]. by rewrite Ascii.eqb_refl.
Qed.

Lemma append_cons c s t : String c s ++ t = String c (s ++ t).
Proof. reflexivity. Qed.

Lemma append_empty_r s : s ++ "" = s.
Proof. induction s as [|c s IH]; [done |]. by rewrite append_cons, IH. Qed.

Lemma span_app p a b :
  all_chars p a = true → stops p b → span p (a ++ b) = (a, b).
Proof.
  intros Ha Hb. induction a as [|c a IH]; simpl in *.
  - destruct b as [|c b]; simpl in *; [done | by rewrite Hb].
  - apply andb_prop in Ha as [Hc Ha]. by rewrite Hc, IH.
Qed.

Lemma many1_app p a b :
  a ≠ "" → all_chars p a = true → stops p b →
  many1 p (a ++ b) = Some (a, b).
Proof.
  intros Hne Ha Hb. unfold many1. rewrite span_app by done.
  by destruct a.
Qed.

Lemma digit_not_alpha c : is_digit c = true → is_alpha c = false.
Proof.
  destruct c as [[] [] [] [] [] [] [] []]; vm_compute; congruence.
Qed.

Lemma digits_stop_alpha s : all_chars is_digit s = true → stops is_alpha s.
Proof.
  destruct s as [|c s]; simpl; [done |].
  intros [Hc _]%andb_prop. by apply digit_not_alpha.
Qed.

Lemma alpha_digit_differ a c :
  is_alpha a = true → is_digit c = true → Ascii.eqb a c = false.
Proof.
  intros Ha Hc. destruct (Ascii.eqb_spec a c) as [->|]; [| done].
  apply digit_not_alpha in Hc. congruence.
Qed.

(** A name that does not start with the letters [l] still does not
    once digits are appended. *)
Lemma lit_letters_digits l : ∀ base digits,
  all_chars is_alpha l = true →
  all_chars is_digit digits = true →
  lit l base = None → lit l (base ++ digits) = None.
Proof.
  induction l as [|a l IH]; intros base digits Hl Hd; simpl; [done |].
  simpl in Hl. apply andb_prop in Hl as [Ha Hl].
  destruct base as [|b base].
  - intros _. change ("" ++ digits) with digits.
    destruct digits as [|c digits]; [done |].
    simpl in Hd. apply andb_prop in Hd as [Hc _].
    simpl. by rewrite (alpha_digit_differ a c).
  - rewrite append_cons. simpl.
    destruct (Ascii.eqb a b); [by apply IH | done].
Qed.

(** A bare device path: letters, then digits. *)
Lemma re_mounted_partition base digits :
  base ≠ "" → all_chars is_alpha base = true →
  lit "mapper" base = None →
  all_chars is_digit digits = true →
  re_mounted ("/dev/" ++ base ++ digits) = Some (Groups (Some base) None).
Proof.
  intros Hne Hbase Hmapper Hdigits.
  unfold re_mounted, re_mounted_disk.
  rewrite lit_app. cbn [mbind option_bind].
  rewrite (lit_letters_digits "mapper" base digits) by done.
  rewrite many1_app by auto using digits_stop_alpha. cbn [mbind option_bind]. done.
Qed.

(** A device-mapper path whose alias is made of word characters. *)
Lemma re_mounted_mapper alias :
  alias ≠ "" → all_chars is_word alias = true →
  re_mounted ("/dev/mapper/" ++ alias) = Some (Groups None (Some alias)).
Proof.
  intros Hne Halias.
  assert (re_mounted_disk ("/dev/mapper/" ++ alias) = None) as Hdisk.
  { unfold re_mounted_disk.
    change ("/dev/mapper/" ++ alias) with ("/dev/" ++ "mapper" ++ "/" ++ alias).
    rewrite lit_app. cbn [mbind option_bind]. by rewrite lit_app. }
  unfold re_mounted. rewrite Hdisk. unfold re_mounted_alias.
  rewrite lit_app. cbn [mbind option_bind].
  rewrite <- (append_empty_r alias) at 1.
  rewrite many1_app by done. cbn [mbind option_bind]. done.
Qed.

Lemma truthy_nonempty s : s ≠ "" → truthy (Some s) = Some s.
Proof. by destruct s. Qed.

(** Line 96 for a partition of a bare device. *)
Lemma protect_mounted_partition d line base digits :
  strip line = "/dev/" ++ base ++ digits →
  base ≠ "" → all_chars is_alpha base = true →
  lit "mapper" base = None →
  all_chars is_digit digits = true →
  protect_mounted d line = add_to "protected" {[base]} d.
Proof.
  intros Hline Hne Hbase Hmapper Hdigits. unfold protect_mounted.
  rewrite Hline, re_mounted_partition by done. cbn [disk_group alias_group].
  by rewrite truthy_nonempty.
Qed.

(** Lines 98-101 for a device-mapper source. *)
Lemma protect_mounted_mapper d line alias :
  strip line = "/dev/mapper/" ++ alias →
  alias ≠ "" → all_chars is_word alias = true →
  protect_mounted d line
  = match add_to "protected" {[alias]} d !! alias with
    | Some members => add_to "protected" members (add_to "protected" {[alias]} d)
    | None => add_to "protected" {[alias]} d
    end.
Proof.
  intros Hline Hne Halias. unfold protect_mounted.
  rewrite Hline, re_mounted_mapper by done. cbn [disk_group alias_group].
  by rewrite truthy_nonempty.
Qed.

Lemma append_grows base digits : digits ≠ "" → base ++ digits ≠ base.
Proof.
  intros Hd. induction base as [|c base IH].
  - done.
  - rewrite append_cons. intros [= H]. by apply IH.
Qed.

(** The collector on a host where every command starts, with the mount
    table split at one of its lines. *)
Lemma disk_associations_at_mount h line :
  forallb (launched h) (issued_commands h) = true →
  line ∈ splitlines (output_text h cmd_findmnt) →
  ∃ d l1 l2,
    disk_associations h
    = Ok (foldl protect_lvm
            (foldl protect_mounted
               (protect_mounted
                  (foldl protect_mounted (<["protected" := ∅]> d) l1) line)
               l2)
            (splitlines (output_text h cmd_pvs))).
Proof.
  intros Hall Hline.
  destruct (disk_associations_launched h Hall) as (d & _ & ->).
  apply list_elem_of_split in Hline as (l1 & l2 & ->).
  exists d, l1, l2. by rewrite foldl_app.
Qed.

(** What is protected after one line stays protected to the end. *)
Lemma protected_to_the_end d l2 lvm p :
  d !! "protected" = Some p →
  ∃ prot,
    foldl protect_lvm (foldl protect_mounted d l2) lvm !! "protected"
    = Some prot
    ∧ p ⊆ prot.
Proof.
  intros Hp.
  destruct (steps_grow protect_mounted protect_mounted_other
              protect_mounted_grows l2 d p Hp) as (p1 & Hp1 & Hsub1).
  destruct (steps_grow protect_lvm protect_lvm_other protect_lvm_grows
              lvm _ p1 Hp1) as (p2 & Hp2 & Hsub2).
  exists p2. split; [done | set_solver].
Qed.

Lemma unprotected_keys_to_the_end d l lvm k :
  k ≠ "protected" →
  foldl protect_lvm (foldl protect_mounted d l) lvm !! k = d !! k.
Proof.
  intros Hk.
  rewrite (steps_other protect_lvm protect_lvm_other) by done.
  by rewrite (steps_other protect_mounted protect_mounted_other).
Qed.

Lemma pop_protected (dm : gmap string (gset string)) prot :
  dm !! "protected" = Some prot →
  pop "protected" dm = Ok (prot, delete "protected" dm).
Proof. intros H. unfold pop. by rewrite H. Qed.

(** C4 (the code departs from it).  A mounted [/dev/mapper/<alias>]
    must put the alias, and its member disks when the alias is a key of
    the relationship map, in the protected set.  The pattern of line 89
    takes the alias with [\w+], the leading run of letters, digits and
    underscores.  On a host where the multipath volume [data-vol], over
    [sdg] and [sdh], is mounted from [/dev/mapper/data-vol], the
    protected set is [{data}]: neither the alias nor its disks are
    protected, [main] accepts [-m data-vol], and the run deletes the
    disks of the mounted volume. *)
Lemma dashed_alias_is_not_protected :
  disk_associations host_dashed_alias
  = Ok (<["protected" := {["data"]}]>
          (<["data-vol" := {["sdg"; "sdh"]}]> ∅))
  ∧ "/dev/mapper/data-vol"
    ∈ splitlines (output_text host_dashed_alias cmd_findmnt)
  ∧ ("data-vol" ∉ ({["data"]} : gset string))
  ∧ ("sdg" ∉ ({["data"]} : gset string))
  ∧ ("sdh" ∉ ({["data"]} : gset string))
  ∧ accepted_alias (output_text host_dashed_alias cmd_multipath) "data-vol"
    = true
  ∧ WriteFile (delete_file "sdg") ("1" ++ newline)
    ∈ (delete_devices host_dashed_alias ∅ {["data-vol"]} true false).1.
Proof.
  split_and!.
  - vm_compute. reflexivity.
  - apply (bool_decide_unpack _). vm_compute. reflexivity.
  - apply (bool_decide_unpack _). vm_compute. reflexivity.
  - apply (bool_decide_unpack _). vm_compute. reflexivity.
  - apply (bool_decide_unpack _). vm_compute. reflexivity.
  - vm_compute. reflexivity.
  - apply (bool_decide_unpack _). vm_compute. reflexivity.
Qed.

(** Where the pattern does take the whole name -- an alias that is a
    non-empty string of letters, digits and underscores -- the collector
    puts the alias of a mounted [/dev/mapper/<alias>] in the protected
    set, and when the alias is a key of the relationship map it also
    puts every member disk of the alias there. *)
Theorem mounted_alias_is_protected (h : host) (line alias : string) :
  forallb (launched h) (issued_commands h) = true →
  line ∈ splitlines (output_text h cmd_findmnt) →
  strip line = "/dev/mapper/" ++ alias →
  alias ≠ "" →
  all_chars is_word alias = true →
  ∃ dm prot,
    disk_associations h = Ok dm
    ∧ pop "protected" dm = Ok (prot, delete "protected" dm)
    ∧ alias ∈ prot
    ∧ ∀ members,
        delete "protected" dm !! alias = Some members → members ⊆ prot.
Proof.
  intros Hall Hline Hstrip Hne Hword.
  destruct (disk_associations_at_mount h line Hall Hline)
    as (d & l1 & l2 & Hdm).
  set (d0 := <["protected" := ∅]> d) in *.
  destruct (steps_grow protect_mounted protect_mounted_other
              protect_mounted_grows l1 d0 ∅) as (p0 & Hp0 & _).
  { apply lookup_insert_eq. }
  set (before := foldl protect_mounted d0 l1) in *.
  assert (∃ p1, protect_mounted before line !! "protected" = Some p1
                ∧ alias ∈ p1
                ∧ ∀ m, alias ≠ "protected" → before !! alias = Some m →
                       m ⊆ p1) as (p1 & Hp1 & Halias & Hmembers).
  { rewrite (protect_mounted_mapper before line alias) by done.
    pose proof (add_to_lookup_eq "protected" {[alias]} before p0 Hp0) as Hadd.
    destruct (add_to "protected" {[alias]} before !! alias) as [m|] eqn:Hm.
    - eexists. split; [by apply add_to_lookup_eq |]. split; [set_solver |].
      intros m' Hk Hm'. rewrite add_to_lookup_ne in Hm by done.
      assert (m' = m) as -> by congruence. set_solver.
    - eexists. split; [exact Hadd |]. split; [set_solver |].
      intros m' Hk Hm'. rewrite add_to_lookup_ne in Hm by done. congruence. }
  destruct (protected_to_the_end _ l2 (splitlines (output_text h cmd_pvs))
              p1 Hp1) as (prot & Hprot & Hsub).
  eexists _, prot. split; [exact Hdm |]. split; [by apply pop_protected |].
  split; [set_solver |].
  intros members [Hk Hlook]%lookup_delete_Some.
  assert (alias ≠ "protected") as Hk' by done.
  rewrite unprotected_keys_to_the_end in Hlook by done.
  rewrite protect_mounted_other in Hlook by done.
  specialize (Hmembers members Hk' Hlook). set_solver.
Qed.

Lemma mounted_alias_is_protected_witness :
  ∃ dm prot,
    disk_associations host_sample = Ok dm
    ∧ pop "protected" dm = Ok (prot, delete "protected" dm)
    ∧ "testvol2" ∈ prot
    ∧ ∀ members,
        delete "protected" dm !! "testvol2" = Some members → members ⊆ prot.
Proof.
  apply (mounted_alias_is_protected host_sample "/dev/mapper/testvol2"
           "testvol2").
  - vm_compute. reflexivity.
  - apply (bool_decide_unpack _). vm_compute. reflexivity.
  - vm_compute. reflexivity.
  - discriminate.
  - vm_compute. reflexivity.
Defined.

(** The example of the specification: with [/dev/mapper/testvol2]
    mounted and [testvol2] mapped to [sdg], [sdh], [sdi] and [sdj], the
    protected set holds the alias and the four disks. *)
Lemma sample_protected_set :
  disk_associations host_sample
  = Ok (<["protected" := {["vgROOT"; "sda"; "sdb"; "testvol1"; "testvol2";
                           "sdc"; "sdd"; "sdg"; "sdh"; "sdi"; "sdj"]}]>
          sample_groups).
Proof. vm_compute. reflexivity. Qed.

(** C5, as stated, fails for a device name that is not made of letters
    only, and for one that starts with the letters [mapper]: the pattern
    takes the leading run of letters, and its look-ahead rejects every
    name that begins with [mapper].  A mounted [/dev/nvme0n1p2] protects
    [nvme]; a mounted [/dev/mapperb1] protects nothing. *)
Lemma partition_of_other_names :
  disk_associations host_nvme = Ok {["protected" := {["nvme"]}]}
  ∧ ("nvme0n1p" ∉ ({["nvme"]} : gset string))
  ∧ ("nvme0n1" ∉ ({["nvme"]} : gset string))
  ∧ disk_associations host_mapperb = Ok {["protected" := ∅]}
  ∧ ("mapperb" ∉ (∅ : gset string)).
Proof.
  split_and!.
  - vm_compute. reflexivity.
  - apply (bool_decide_unpack _). vm_compute. reflexivity.
  - apply (bool_decide_unpack _). vm_compute. reflexivity.
  - vm_compute. reflexivity.
  - set_solver.
Qed.

(** C5 (amended).  For every mounted-filesystem source [/dev/<name><n>]
    where [<name>] is a non-empty string of letters that does not begin
    with [mapper] and [<n>] is a partition number, the collector puts
    [<name>] in the protected set; handling that source adds [<name>]
    and nothing else, so it does not add the partition name
    [<name><n>]. *)
Theorem mounted_partition_protects_disk (h : host)
    (line base digits : string) :
  forallb (launched h) (issued_commands h) = true →
  line ∈ splitlines (output_text h cmd_findmnt) →
  strip line = "/dev/" ++ base ++ digits →
  base ≠ "" →
  all_chars is_alpha base = true →
  lit "mapper" base = None →
  digits ≠ "" →
  all_chars is_digit digits = true →
  (∃ dm prot,
     disk_associations h = Ok dm
     ∧ pop "protected" dm = Ok (prot, delete "protected" dm)
     ∧ base ∈ prot)
  ∧ (∀ d p, d !! "protected" = Some p →
       protect_mounted d line !! "protected" = Some (p ∪ {[base]})
       ∧ (base ++ digits ∈ p ∪ {[base]} → base ++ digits ∈ p)).
Proof.
  intros Hall Hline Hstrip Hne Halpha Hmapper Hdne Hdigits.
  assert (∀ d p, d !! "protected" = Some p →
            protect_mounted d line !! "protected" = Some (p ∪ {[base]}))
    as Hstep.
  { intros d p Hp.
    rewrite (protect_mounted_partition d line base digits) by done.
    by apply add_to_lookup_eq. }
  split.
  - destruct (disk_associations_at_mount h line Hall Hline)
      as (d & l1 & l2 & Hdm).
    destruct (steps_grow protect_mounted protect_mounted_other
                protect_mounted_grows l1 (<["protected" := ∅]> d) ∅)
      as (p0 & Hp0 & _).
    { apply lookup_insert_eq. }
    destruct (protected_to_the_end _ l2 (splitlines (output_text h cmd_pvs))
                _ (Hstep _ _ Hp0)) as (prot & Hprot & Hsub).
    eexists _, prot. split; [exact Hdm |].
    split; [by apply pop_protected | set_solver].
  - intros d p Hp. split; [by apply Hstep |].
    intros [H | H%elem_of_singleton]%elem_of_union; [done |].
    by apply append_grows in H.
Qed.

Lemma mounted_partition_protects_disk_witness :
  (∃ dm prot,
     disk_associations host_sample = Ok dm
     ∧ pop "protected" dm = Ok (prot, delete "protected" dm)
     ∧ "sda" ∈ prot)
  ∧ (∀ d p, d !! "protected" = Some p →
       protect_mounted d "/dev/sda2" !! "protected" = Some (p ∪ {["sda"]})
       ∧ ("sda" ++ "2" ∈ p ∪ {["sda"]} → "sda" ++ "2" ∈ p)).
Proof.
  apply (mounted_partition_protects_disk host_sample "/dev/sda2" "sda" "2").
  - vm_compute. reflexivity.
  - apply (bool_decide_unpack _). vm_compute. reflexivity.
  - vm_compute. reflexivity.
  - discriminate.
  - vm_compute. reflexivity.
  - vm_compute. reflexivity.
  - discriminate.
  - vm_compute. reflexivity.
Defined.

(** ** The key [protected] *)

Lemma query_inv h cmd text :
  query h cmd = Ok text → text = output_text h cmd ∧ launched h cmd = true.
Proof.
  unfold query, output_text, launched.
  destruct (check_output h cmd); intros [= <-] || intros [=]; done.
Qed.

(** The members loop of one alias touches the entry of that alias
    only, and reads nothing else. *)
Lemma collect_members_other device l : ∀ d k,
  k ≠ device → foldl (collect_members device) d l !! k = d !! k.
Proof.
  induction l as [|line l IH]; intros d k Hk; simpl; [done |].
  rewrite IH by done. unfold collect_members.
  destruct (re_multipath line); [by rewrite add_to_lookup_ne | done].
Qed.

Lemma collect_members_local device l : ∀ d d' k,
  d !! k = d' !! k →
  foldl (collect_members device) d l !! k
  = foldl (collect_members device) d' l !! k.
Proof.
  induction l as [|line l IH]; intros d d' k Hk; simpl; [done |].
  apply IH. unfold collect_members.
  destruct (re_multipath line); [| done].
  rewrite !add_to_lookup. case_decide; by rewrite Hk.
Qed.

Lemma collect_members_dom device l : ∀ d,
  dom (foldl (collect_members device) d l) = dom d.
Proof.
  induction l as [|line l IH]; intros d; simpl; [done |].
  rewrite IH. unfold collect_members.
  destruct (re_multipath line); [by rewrite add_to_dom | done].
Qed.

(** The keys after the multipath phase are the listed aliases. *)
Lemma collect_aliases_dom h l : ∀ d d',
  for_each (collect_alias h) l d = Ok d' →
  dom d' = list_to_set (strip <$> l) ∪ dom d.
Proof.
  induction l as [|line l IH]; intros d d'; simpl.
  - intros [= <-]. set_solver.
  - unfold collect_alias at 1.
    destruct (query h ("multipath -ll " ++ strip line)) as [info|e];
      simpl; [| done].
    intros Hrest. rewrite (IH _ _ Hrest), collect_members_dom, dom_insert_L.
    set_solver.
Qed.

Lemma protect_mounted_dom d line : dom (protect_mounted d line) = dom d.
Proof.
  unfold protect_mounted.
  destruct (re_mounted (strip line)) as [g|]; [| done].
  destruct (truthy (disk_group g)); [by rewrite add_to_dom |].
  destruct (truthy (alias_group g)) as [am|]; [| done].
  destruct (add_to "protected" {[am]} d !! am); by rewrite !add_to_dom.
Qed.

Lemma protect_lvm_dom d line : dom (protect_lvm d line) = dom d.
Proof.
  unfold protect_lvm.
  destruct (re_lvm (strip line)); [by rewrite add_to_dom | done].
Qed.

Lemma foldl_dom (step : gmap string (gset string) → string →
                        gmap string (gset string)) l :
  (∀ d line, dom (step d line) = dom d) →
  ∀ d, dom (foldl step d l) = dom d.
Proof.
  intros Hstep. induction l as [|line l IH]; intros d; simpl; [done |].
  by rewrite IH, Hstep.
Qed.

(** What a returned dictionary is made of. *)
Lemma disk_associations_inv h dm :
  disk_associations h = Ok dm →
  ∃ d,
    for_each (collect_alias h) (splitlines (output_text h cmd_multipath)) ∅
    = Ok d
    ∧ query h cmd_findmnt = Ok (output_text h cmd_findmnt)
    ∧ query h cmd_pvs = Ok (output_text h cmd_pvs)
    ∧ query h cmd_multipath = Ok (output_text h cmd_multipath)
    ∧ dm = foldl protect_lvm
             (foldl protect_mounted (<["protected" := ∅]> d)
                (splitlines (output_text h cmd_findmnt)))
             (splitlines (output_text h cmd_pvs)).
Proof.
  unfold disk_associations, collect_multipath.
  destruct (query h cmd_multipath) as [t1|] eqn:H1; simpl; [| done].
  destruct (query_inv _ _ _ H1) as [-> _].
  destruct (for_each _ _ _) as [d|] eqn:Hd; simpl; [| done].
  destruct (query h cmd_findmnt) as [t2|] eqn:H2; simpl; [| done].
  destruct (query_inv _ _ _ H2) as [-> _].
  destruct (query h cmd_pvs) as [t3|] eqn:H3; simpl; [| done].
  destruct (query_inv _ _ _ H3) as [-> _].
  intros [= <-]. by exists d.
Qed.

Lemma query_with_output h cmd text c :
  c ≠ cmd → query (with_output h cmd text) c = query h c.
Proof. intros Hc. unfold query, with_output. simpl. by case_decide. Qed.

Lemma query_with_output_eq h cmd text :
  query (with_output h cmd text) cmd = Ok text.
Proof. unfold query, with_output. simpl. by case_decide. Qed.

(** Whatever [multipath -ll protected] prints, the multipath phase ends
    with the same entries under all other keys. *)
Lemma collect_aliases_agree h text l : ∀ d d' dr,
  agree d d' →
  for_each (collect_alias h) l d = Ok dr →
  ∃ dr',
    for_each
      (collect_alias (with_output h "multipath -ll protected" text)) l d'
    = Ok dr'
    ∧ agree dr dr'.
Proof.
  induction l as [|line l IH]; intros d d' dr Hagree; simpl.
  - intros [= <-]. by exists d'.
  - unfold collect_alias at 1 3.
    destruct (decide (strip line = "protected")) as [Hp|Hp].
    + rewrite Hp, query_with_output_eq. simpl.
      destruct (query h ("multipath -ll " ++ "protected")) as [info|];
        simpl; [| done].
      apply IH. intros k Hk.
      rewrite !collect_members_other by done.
      rewrite !lookup_insert_ne by done. by apply Hagree.
    + rewrite query_with_output.
      2: { intros Heq. by apply (String.app_inj "multipath -ll ") in Heq. }
      destruct (query h ("multipath -ll " ++ strip line)) as [info|];
        simpl; [| done].
      apply IH. intros k Hk.
      apply collect_members_local.
      destruct (decide (strip line = k)) as [->|Hne].
      * by rewrite !lookup_insert_eq.
      * rewrite !lookup_insert_ne by done. by apply Hagree.
Qed.

Lemma disk_associations_members_of_protected h dm text :
  disk_associations h = Ok dm →
  disk_associations (with_output h "multipath -ll protected" text) = Ok dm.
Proof.
  intros (d & Hd & Hf & Hp & Hm & ->)%disk_associations_inv.
  destruct (collect_aliases_agree h text _ ∅ ∅ d (fun k _ => eq_refl) Hd)
    as (d' & Hd' & Hagree).
  unfold disk_associations, collect_multipath.
  rewrite !query_with_output by done.
  rewrite Hm. simpl. rewrite Hd'. simpl.
  rewrite Hf. simpl. rewrite Hp. simpl.
  assert (<["protected" := ∅]> d' = <["protected" := ∅]> d) as ->; [| done].
  apply map_eq. intros k. destruct (decide (k = "protected")) as [->|Hk].
  - by rewrite !lookup_insert_eq.
  - rewrite !lookup_insert_ne by done. symmetry. by apply Hagree.
Qed.

(** C10.  The collector returns the protected set under the key
    [protected] of the dictionary that also maps the aliases.  On a host
    where a multipath alias is named [protected], line 71 replaces the
    members of that alias by the empty protected set: the dictionary
    returned is the same whatever disks the alias has, the map the
    resolver works on has no entry for the alias, and its keys are the
    listed aliases without [protected], so not the listed aliases. *)
Theorem alias_named_protected_is_lost (h : host)
    (dm : gmap string (gset string)) (text : string) :
  disk_associations h = Ok dm →
  "protected" ∈ listed_aliases h →
  ∃ prot,
    pop "protected" dm = Ok (prot, delete "protected" dm)
    ∧ delete "protected" dm !! "protected" = None
    ∧ dom (delete "protected" dm)
      = list_to_set (listed_aliases h) ∖ {["protected"]}
    ∧ dom (delete "protected" dm) ≠ list_to_set (listed_aliases h)
    ∧ disk_associations (with_output h "multipath -ll protected" text)
      = Ok dm.
Proof.
  intros Hdm Hlisted.
  pose proof (disk_associations_members_of_protected h dm text Hdm) as Hsame.
  apply disk_associations_inv in Hdm as (d & Hd & _ & _ & _ & ->).
  set (dm := foldl protect_lvm _ _) in *.
  assert (dom dm = {["protected"]} ∪ list_to_set (listed_aliases h)) as Hdom.
  { subst dm.
    rewrite (foldl_dom protect_lvm _ protect_lvm_dom).
    rewrite (foldl_dom protect_mounted _ protect_mounted_dom).
    rewrite dom_insert_L, (collect_aliases_dom _ _ _ _ Hd).
    unfold listed_aliases. set_solver. }
  assert (is_Some (dm !! "protected")) as [prot Hprot].
  { apply elem_of_dom. rewrite Hdom. set_solver. }
  exists prot. split_and!.
  - by apply pop_protected.
  - apply lookup_delete_eq.
  - rewrite dom_delete_L, Hdom. set_solver.
  - rewrite dom_delete_L, Hdom. intros Heq.
    assert ("protected" ∈ (list_to_set (listed_aliases h) : gset string))
      as Hin by (by apply elem_of_list_to_set).
    rewrite <- Heq in Hin. set_solver.
  - exact Hsame.
Qed.

Lemma alias_named_protected_is_lost_witness :
  ∃ prot,
    pop "protected" returned_alias_protected
    = Ok (prot, delete "protected" returned_alias_protected)
    ∧ delete "protected" returned_alias_protected !! "protected" = None
    ∧ dom (delete "protected" returned_alias_protected)
      = list_to_set (listed_aliases host_alias_protected) ∖ {["protected"]}
    ∧ dom (delete "protected" returned_alias_protected)
      ≠ list_to_set (listed_aliases host_alias_protected)
    ∧ disk_associations
        (with_output host_alias_protected "multipath -ll protected" "")
      = Ok returned_alias_protected.
Proof.
  apply (alias_named_protected_is_lost host_alias_protected
           returned_alias_protected "").
  - vm_compute. reflexivity.
  - apply (bool_decide_unpack _). vm_compute. reflexivity.
Defined.

(** The host of the witness, spelled out: the multipath phase finds the
    two paths of the alias [protected]; the dictionary returned has lost
    them, and a request for the path [sdg] is resolved as if [sdg] were
    a plain disk, leaving its sibling [sdh] out. *)
Lemma alias_named_protected_example :
  collect_multipath host_alias_protected
  = Ok (<["protected" := {["sdg"; "sdh"]}]>
          (<["testvol1" := {["sdc"; "sdd"]}]> ∅))
  ∧ disk_associations host_alias_protected = Ok returned_alias_protected
  ∧ pop "protected" returned_alias_protected
    = Ok (∅, <["testvol1" := {["sdc"; "sdd"]}]> ∅)
  ∧ resolve (<["testvol1" := {["sdc"; "sdd"]}]> ∅) ∅ false {["sdg"]} ∅
    = ([], Ok ({["sdg"]}, ∅)).
Proof. split_and!; vm_compute; reflexivity. Qed.

(** ** The multipath phase *)

Lemma tok_inv p s : tok p s = true → s ≠ "" ∧ all_chars p s = true.
Proof. destruct s; [done |]. by intros. Qed.

Lemma tok_head p s :
  tok p s = true → ∃ c r, s = String c r ∧ p c = true.
Proof.
  destruct s as [|c r]; [done |]. simpl.
  intros [Hc _]%andb_prop. by exists c, r.
Qed.

Lemma append_empty_l s : "" ++ s = s.
Proof. reflexivity. Qed.

(** A token of one class stops the run of a disjoint class. *)
Lemma tok_stops p q s t :
  tok p s = true → (∀ c, p c = true → q c = false) → stops q (s ++ t).
Proof.
  intros (c & r & -> & Hc)%tok_head Hpq. rewrite append_cons. simpl. auto.
Qed.

Lemma many1_tok p a b :
  tok p a = true → stops p b → many1 p (a ++ b) = Some (a, b).
Proof. intros [? ?]%tok_inv ?. by apply many1_app. Qed.

Lemma span_spec p s : ∀ a b,
  span p s = (a, b) → s = a ++ b ∧ all_chars p a = true ∧ stops p b.
Proof.
  induction s as [|c s IH]; intros a b; simpl.
  - by intros [= <- <-].
  - destruct (p c) eqn:Hc.
    + destruct (span p s) as [a' b'] eqn:Hs. intros [= <- <-].
      destruct (IH a' b' eq_refl) as (-> & Ha & Hb).
      rewrite append_cons. simpl. by rewrite Hc, Ha.
    + intros [= <- <-]. simpl. by rewrite Hc.
Qed.

(** What a successful [p+] took and what it left. *)
Lemma many1_spec p s a b :
  many1 p s = Some (a, b) → s = a ++ b ∧ tok p a = true ∧ stops p b.
Proof.
  unfold many1. destruct (span p s) as [a' b'] eqn:Hs.
  apply span_spec in Hs as (-> & Ha & Hb).
  destruct a' as [|c a']; [done |]. by intros [= <- <-].
Qed.

(** [p+] succeeds as soon as the first character is in the class. *)
Lemma many1_starts p a rest :
  tok p a = true → ∃ x, many1 p (a ++ rest) = Some x.
Proof.
  intros (c & r & -> & Hc)%tok_head. rewrite append_cons.
  unfold many1. simpl. rewrite Hc.
  destruct (span p (r ++ rest)) as [a' b']. by eexists.
Qed.

Lemma space_not_digit c : is_space c = true → is_digit c = false.
Proof. destruct c as [[] [] [] [] [] [] [] []]; vm_compute; congruence. Qed.

Lemma digit_not_space c : is_digit c = true → is_space c = false.
Proof. destruct c as [[] [] [] [] [] [] [] []]; vm_compute; congruence. Qed.

Lemma space_not_word c : is_space c = true → is_word c = false.
Proof. destruct c as [[] [] [] [] [] [] [] []]; vm_compute; congruence. Qed.

Lemma word_not_space c : is_word c = true → is_space c = false.
Proof. destruct c as [[] [] [] [] [] [] [] []]; vm_compute; congruence. Qed.

(** X1.  A path line of [multipath -ll] -- indentation, [|-] or [`-],
    a SCSI address [H:B:T:L], the device name, [major:minor], then
    anything -- matches [re_multipath], and the group [disk] is the
    device name. *)
Theorem re_multipath_path_line
    (indent mark sp1 hh bb tt ll sp2 disk sp3 major minor rest : string) :
  tok is_space indent = true →
  mark = "|" ∨ mark = "`" →
  tok is_space sp1 = true →
  tok is_digit hh = true →
  tok is_digit bb = true →
  tok is_digit tt = true →
  tok is_digit ll = true →
  tok is_space sp2 = true →
  tok is_word disk = true →
  tok is_space sp3 = true →
  tok is_digit major = true →
  tok is_digit minor = true →
  re_multipath
    (indent ++ mark ++ "-" ++ sp1 ++ hh ++ ":" ++ bb ++ ":" ++ tt ++ ":" ++ ll
     ++ sp2 ++ disk ++ sp3 ++ major ++ ":" ++ minor ++ rest)
  = Some disk.
Proof.
  intros Hi Hmark H1 Hh Hb Ht Hl H2 Hd H3 Hmaj Hmin.
  unfold re_multipath.
  rewrite (many1_tok is_space indent) by
    (try done; destruct Hmark as [-> | ->]; done).
  cbn [mbind option_bind].
  assert (one (fun c => Ascii.eqb c "|" || Ascii.eqb c "`")
              (mark ++ "-" ++ sp1 ++ hh ++ ":" ++ bb ++ ":" ++ tt ++ ":" ++ ll
               ++ sp2 ++ disk ++ sp3 ++ major ++ ":" ++ minor ++ rest)
          = Some ("-" ++ sp1 ++ hh ++ ":" ++ bb ++ ":" ++ tt ++ ":" ++ ll
                  ++ sp2 ++ disk ++ sp3 ++ major ++ ":" ++ minor ++ rest))
    as -> by (destruct Hmark as [-> | ->]; done).
  cbn [mbind option_bind]. rewrite lit_app. cbn [mbind option_bind].
  rewrite (many1_tok is_space sp1) by
    eauto using tok_stops, digit_not_space.
  cbn [mbind option_bind].
  rewrite (many1_tok is_digit hh) by done.
  cbn [mbind option_bind]. rewrite lit_app. cbn [mbind option_bind].
  rewrite (many1_tok is_digit bb) by done.
  cbn [mbind option_bind]. rewrite lit_app. cbn [mbind option_bind].
  rewrite (many1_tok is_digit tt) by done.
  cbn [mbind option_bind]. rewrite lit_app. cbn [mbind option_bind].
  rewrite (many1_tok is_digit ll) by
    eauto using tok_stops, space_not_digit.
  cbn [mbind option_bind].
  rewrite (many1_tok is_space sp2) by
    eauto using tok_stops, word_not_space.
  cbn [mbind option_bind].
  rewrite (many1_tok is_word disk) by
    eauto using tok_stops, space_not_word.
  cbn [mbind option_bind].
  rewrite (many1_tok is_space sp3) by
    eauto using tok_stops, digit_not_space.
  cbn [mbind option_bind].
  rewrite (many1_tok is_digit major) by done.
  cbn [mbind option_bind]. rewrite lit_app. cbn [mbind option_bind].
  destruct (many1_starts is_digit minor rest Hmin) as [[a b] ->].
  done.
Qed.

Lemma re_multipath_path_line_witness :
  re_multipath
    ("  " ++ "`" ++ "-" ++ " " ++ "40" ++ ":" ++ "0" ++ ":" ++ "0" ++ ":" ++ "1"
     ++ " " ++ "sdj" ++ " " ++ "8" ++ ":" ++ "144" ++ " active ready running")
  = Some "sdj".
Proof.
  apply (re_multipath_path_line "  " "`" " " "40" "0" "0" "1" " " "sdj" " "
           "8" "144" " active ready running");
    try (vm_compute; reflexivity).
  right. reflexivity.
Defined.

(** X2.  [re_multipath] matches only lines that begin with white space,
    so the header, size and policy lines of [multipath -ll] never give a
    member; and the name it captures is a non-empty string of letters,
    digits and underscores. *)
Theorem re_multipath_inv (line disk : string) :
  re_multipath line = Some disk →
  (∃ c r, line = String c r ∧ is_space c = true)
  ∧ tok is_word disk = true.
Proof.
  unfold re_multipath. intros H.
  destruct (many1 is_space line) as [[a r0]|] eqn:H0;
    cbn [mbind option_bind] in H; [| done].
  apply many1_spec in H0 as (-> & (c & a' & -> & Hc)%tok_head & _).
  split; [rewrite append_cons; by eexists _, _ |].
  repeat match type of H with
  | context [mbind _ (many1 is_word ?r)] =>
      destruct (many1 is_word r) as [[d r']|] eqn:Hword;
      cbn [mbind option_bind] in H; [| done]
  | context [mbind _ (many1 ?p ?r)] =>
      destruct (many1 p r) as [[? ?]|];
      cbn [mbind option_bind] in H; [| done]
  | context [mbind _ (lit ?l ?r)] =>
      destruct (lit l r) as [?|];
      cbn [mbind option_bind] in H; [| done]
  | context [mbind _ (one ?f ?r)] =>
      destruct (one f r) as [?|];
      cbn [mbind option_bind] in H; [| done]
  end.
  injection H as <-. by apply many1_spec in Hword as (_ & ? & _).
Qed.

Lemma re_multipath_inv_witness :
  (∃ c r, "  |- 34:0:0:1 sdg 8:96  active ready running" = String c r
          ∧ is_space c = true)
  ∧ tok is_word "sdg" = true.
Proof.
  apply (re_multipath_inv "  |- 34:0:0:1 sdg 8:96  active ready running" "sdg").
  vm_compute. reflexivity.
Defined.

Lemma collect_members_lookup device lines : ∀ d,
  foldl (collect_members device) d lines !! device
  = (fun s => s ∪ list_to_set (omap re_multipath lines)) <$> d !! device.
Proof.
  induction lines as [|line lines IH]; intros d; simpl.
  - destruct (d !! device) as [s|]; simpl; [f_equal; set_solver | done].
  - rewrite IH. unfold collect_members.
    destruct (re_multipath line) as [disk|]; simpl; [| done].
    rewrite add_to_lookup. case_decide; [| done].
    destruct (d !! device) as [s|]; simpl; [f_equal; set_solver | done].
Qed.

(** One pass of lines 45-68 sets the entry of its alias and leaves the
    others. *)
Lemma collect_alias_lookup h d line d' a :
  collect_alias h d line = Ok d' →
  d' !! a = if decide (a = strip line) then Some (members_of h a) else d !! a.
Proof.
  unfold collect_alias.
  destruct (query h ("multipath -ll " ++ strip line)) as [info|] eqn:Hq;
    simpl; [| done].
  apply query_inv in Hq as [-> _]. intros [= <-].
  case_decide as Ha.
  - subst a. rewrite collect_members_lookup, lookup_insert_eq. simpl.
    unfold members_of. f_equal. set_solver.
  - rewrite collect_members_other by done. by rewrite lookup_insert_ne.
Qed.

Lemma collect_aliases_lookup h l : ∀ d d' a,
  for_each (collect_alias h) l d = Ok d' →
  d' !! a
  = if decide (a ∈ strip <$> l) then Some (members_of h a) else d !! a.
Proof.
  induction l as [|line l IH]; intros d d' a; simpl.
  - by intros [= <-].
  - destruct (collect_alias h d line) as [d1|] eqn:Hstep; [| done].
    intros Hrest. rewrite (IH _ _ a Hrest).
    rewrite (collect_alias_lookup _ _ _ _ a Hstep).
    repeat case_decide; try done; set_solver.
Qed.

(** X3.  The relationship map the resolver receives: its keys are the
    lines of the multipath listing, stripped -- blank lines too, and
    without the word [protected] -- and each alias is mapped to the
    device names that [re_multipath] finds in the output of
    [multipath -ll <alias>]. *)
Theorem relationship_map_is_the_listing (h : host)
    (dm : gmap string (gset string)) (a : string) :
  disk_associations h = Ok dm →
  delete "protected" dm !! a
  = if decide (a ∈ listed_aliases h ∧ a ≠ "protected")
    then Some (members_of h a) else None.
Proof.
  intros (d & Hd & _ & _ & _ & ->)%disk_associations_inv.
  destruct (decide (a = "protected")) as [->|Ha].
  - rewrite lookup_delete_eq. case_decide; [naive_solver | done].
  - rewrite lookup_delete_ne by done.
    rewrite unprotected_keys_to_the_end by done.
    rewrite lookup_insert_ne by done.
    rewrite (collect_aliases_lookup _ _ _ _ a Hd). rewrite lookup_empty.
    unfold listed_aliases. repeat case_decide; naive_solver.
Qed.

Lemma relationship_map_is_the_listing_witness :
  delete "protected"
    (<["protected" := {["vgROOT"; "sda"; "sdb"; "testvol1"; "testvol2";
                         "sdc"; "sdd"; "sdg"; "sdh"; "sdi"; "sdj"]}]>
       sample_groups) !! "testvol2"
  = if decide ("testvol2" ∈ listed_aliases host_sample
               ∧ "testvol2" ≠ "protected")
    then Some (members_of host_sample "testvol2") else None.
Proof.
  apply (relationship_map_is_the_listing host_sample).
  vm_compute. reflexivity.
Defined.

(** ** The protected set *)

Lemma protect_mounted_cases d line :
  protect_mounted d line
  = match mounted_disk line with
    | Some x => add_to "protected" {[x]} d
    | None =>
        match mounted_alias line with
        | Some a =>
            match add_to "protected" {[a]} d !! a with
            | Some members =>
                add_to "protected" members (add_to "protected" {[a]} d)
            | None => add_to "protected" {[a]} d
            end
        | None => d
        end
    end.
Proof.
  unfold protect_mounted, mounted_disk, mounted_alias.
  destruct (re_mounted (strip line)) as [g|]; simpl; [| done].
  destruct (truthy (disk_group g)); [done |].
  by destruct (truthy (alias_group g)).
Qed.

(** What one line of the mount table adds to the protected set. *)
Lemma protect_mounted_adds d line p :
  d !! "protected" = Some p →
  ∃ p',
    protect_mounted d line !! "protected" = Some p'
    ∧ ∀ x, x ∈ p' ↔
        x ∈ p ∨ mounted_disk line = Some x ∨ mounted_alias line = Some x
        ∨ ∃ a m, mounted_alias line = Some a ∧ a ≠ "protected"
                 ∧ d !! a = Some m ∧ x ∈ m.
Proof.
  intros Hp. rewrite protect_mounted_cases.
  destruct (mounted_disk line) as [dk|] eqn:Hdisk.
  { eexists. split; [by apply add_to_lookup_eq |].
    assert (mounted_alias line = None) as ->.
    { unfold mounted_disk, mounted_alias in *.
      destruct (re_mounted (strip line)); simpl in *; [| done].
      by rewrite Hdisk. }
    intros x. rewrite elem_of_union, elem_of_singleton. naive_solver. }
  destruct (mounted_alias line) as [a|] eqn:Halias.
  2: { exists p. split; [done |]. naive_solver. }
  pose proof (add_to_lookup_eq "protected" {[a]} d p Hp) as Hadd.
  destruct (decide (a = "protected")) as [->|Ha].
  - rewrite Hadd. eexists. split; [by apply add_to_lookup_eq |].
    intros x. rewrite !elem_of_union, elem_of_singleton. naive_solver.
  - rewrite add_to_lookup_ne by done.
    destruct (d !! a) as [m|] eqn:Hm.
    + eexists. split; [by apply add_to_lookup_eq |].
      intros x. rewrite !elem_of_union, elem_of_singleton. naive_solver.
    + eexists. split; [exact Hadd |].
      intros x. rewrite elem_of_union, elem_of_singleton. naive_solver.
Qed.

Lemma protect_mounted_all l : ∀ d p,
  d !! "protected" = Some p →
  ∃ p',
    foldl protect_mounted d l !! "protected" = Some p'
    ∧ ∀ x, x ∈ p' ↔
        x ∈ p
        ∨ ∃ line, line ∈ l
            ∧ (mounted_disk line = Some x ∨ mounted_alias line = Some x
               ∨ ∃ a m, mounted_alias line = Some a ∧ a ≠ "protected"
                        ∧ d !! a = Some m ∧ x ∈ m).
Proof.
  induction l as [|line l IH]; intros d p Hp; simpl.
  - exists p. split; [done |]. intros x. split; [auto |].
    intros [? | (line & Hin & _)]; [done | by apply elem_of_nil in Hin].
  - destruct (protect_mounted_adds d line p Hp) as (p1 & Hp1 & Hchar1).
    destruct (IH _ _ Hp1) as (p2 & Hp2 & Hchar2).
    exists p2. split; [done |]. intros x. rewrite Hchar2, Hchar1.
    split.
    + intros [[?|Hline] | (line' & Hin & Hline')].
      * by left.
      * right. exists line. split; [set_solver | exact Hline].
      * right. exists line'. split; [set_solver |].
        destruct Hline' as [?|[?|(a & m & ? & Ha & Hm & ?)]]; [auto | auto |].
        rewrite protect_mounted_other in Hm by done. naive_solver.
    + intros [? | (line' & [->|Hin]%elem_of_cons & Hline')].
      * auto.
      * auto.
      * right. exists line'. split; [done |].
        destruct Hline' as [?|[?|(a & m & ? & Ha & Hm & ?)]]; [auto | auto |].
        right. right. exists a, m.
        rewrite protect_mounted_other by done. done.
Qed.

Lemma protect_lvm_all l : ∀ d p,
  d !! "protected" = Some p →
  ∃ p',
    foldl protect_lvm d l !! "protected" = Some p'
    ∧ ∀ x, x ∈ p' ↔ x ∈ p ∨ ∃ line, line ∈ l ∧ lvm_disk line = Some x.
Proof.
  induction l as [|line l IH]; intros d p Hp; simpl.
  - exists p. split; [done |]. intros x. split; [auto |].
    intros [? | (line & Hin & _)]; [done | by apply elem_of_nil in Hin].
  - assert (∃ p1, protect_lvm d line !! "protected" = Some p1
                  ∧ ∀ x, x ∈ p1 ↔ x ∈ p ∨ lvm_disk line = Some x)
      as (p1 & Hp1 & Hchar1).
    { unfold protect_lvm, lvm_disk.
      destruct (re_lvm (strip line)) as [name|].
      - eexists. split; [by apply add_to_lookup_eq |].
        intros x. rewrite elem_of_union, elem_of_singleton. naive_solver.
      - exists p. split; [done |]. naive_solver. }
    destruct (IH _ _ Hp1) as (p2 & Hp2 & Hchar2).
    exists p2. split; [done |]. intros x. rewrite Hchar2, Hchar1.
    split.
    + intros [[?|?] | (line' & Hin & ?)]; [auto | |].
      * right. exists line. split; [set_solver | done].
      * right. exists line'. split; [set_solver | done].
    + intros [? | (line' & [->|Hin]%elem_of_cons & ?)]; [auto | auto |].
      right. by exists line'.
Qed.

(** X4.  The protected set the collector returns holds exactly: the
    disk name of every bare-device line of the mount table, the alias
    name of every device-mapper line, the member disks of such an alias
    when it is a key of the relationship map, and the disk name of every
    line of the physical-volume listing.  Nothing else is protected. *)
Theorem protected_set_is_mounts_and_volumes (h : host)
    (dm : gmap string (gset string)) :
  disk_associations h = Ok dm →
  ∃ prot,
    pop "protected" dm = Ok (prot, delete "protected" dm)
    ∧ ∀ x, x ∈ prot ↔
        (∃ line, line ∈ mount_lines h
           ∧ (mounted_disk line = Some x ∨ mounted_alias line = Some x
              ∨ ∃ a m, mounted_alias line = Some a
                       ∧ delete "protected" dm !! a = Some m ∧ x ∈ m))
        ∨ (∃ line, line ∈ lvm_lines h ∧ lvm_disk line = Some x).
Proof.
  intros (d & Hd & _ & _ & _ & ->)%disk_associations_inv.
  destruct (protect_mounted_all (mount_lines h) (<["protected" := ∅]> d) ∅)
    as (p1 & Hp1 & Hchar1); [apply lookup_insert_eq |].
  destruct (protect_lvm_all (lvm_lines h) _ p1 Hp1) as (p2 & Hp2 & Hchar2).
  exists p2. split; [by apply pop_protected |].
  intros x. rewrite Hchar2, Hchar1.
  assert (∀ a m, a ≠ "protected" ∧ <["protected" := ∅]> d !! a = Some m
                 ↔ delete "protected"
                     (foldl protect_lvm
                        (foldl protect_mounted (<["protected" := ∅]> d)
                           (splitlines (output_text h cmd_findmnt)))
                        (splitlines (output_text h cmd_pvs))) !! a = Some m)
    as Hmap.
  { intros a m. rewrite lookup_delete_Some. split.
    - intros [Ha Hm]. split; [done |].
      by rewrite unprotected_keys_to_the_end.
    - intros [Ha Hm]. split; [done |].
      by rewrite unprotected_keys_to_the_end in Hm. }
  split.
  - intros [[Hempty | (line & Hin & Hline)] | Hlvm];
      [set_solver | | by right].
    left. exists line. split; [done |].
    destruct Hline as [?|[?|(a & m & ? & Ha & Hm & ?)]]; [auto | auto |].
    right. right. exists a, m. split; [done |]. split; [| done].
    by apply Hmap.
  - intros [(line & Hin & Hline) | Hlvm]; [| by right].
    left. right. exists line. split; [done |].
    destruct Hline as [?|[?|(a & m & ? & Hm & ?)]]; [auto | auto |].
    apply Hmap in Hm as [Ha Hm]. right. right. by exists a, m.
Qed.

Lemma protected_set_is_mounts_and_volumes_witness :
  ∃ prot,
    pop "protected" (<["protected" := {["sda"; "sdg"]}]> sample_groups)
    = Ok (prot, delete "protected"
                  (<["protected" := {["sda"; "sdg"]}]> sample_groups))
    ∧ ∀ x, x ∈ prot ↔
        (∃ line, line ∈ mount_lines host_pv_on_path
           ∧ (mounted_disk line = Some x ∨ mounted_alias line = Some x
              ∨ ∃ a m, mounted_alias line = Some a
                       ∧ delete "protected"
                           (<["protected" := {["sda"; "sdg"]}]> sample_groups)
                         !! a = Some m ∧ x ∈ m))
        ∨ (∃ line, line ∈ lvm_lines host_pv_on_path ∧ lvm_disk line = Some x).
Proof.
  apply (protected_set_is_mounts_and_volumes host_pv_on_path).
  vm_compute. reflexivity.
Defined.

Lemma re_lvm_name base rest :
  tok is_alpha base = true → stops is_alpha rest →
  re_lvm ("/dev/" ++ base ++ rest) = Some base.
Proof.
  intros Hbase Hrest. unfold re_lvm.
  rewrite lit_app. cbn [mbind option_bind].
  rewrite many1_tok by done. done.
Qed.

(** The collector on a host where every command starts, with the
    physical-volume listing split at one of its lines. *)
Lemma disk_associations_at_volume h line :
  forallb (launched h) (issued_commands h) = true →
  line ∈ lvm_lines h →
  ∃ d l1 l2,
    disk_associations h
    = Ok (foldl protect_lvm
            (protect_lvm
               (foldl protect_lvm
                  (foldl protect_mounted (<["protected" := ∅]> d)
                     (mount_lines h)) l1) line) l2).
Proof.
  intros Hall Hline.
  destruct (disk_associations_launched h Hall) as (d & _ & ->).
  unfold lvm_lines in Hline.
  apply list_elem_of_split in Hline as (l1 & l2 & ->).
  exists d, l1, l2. by rewrite foldl_app.
Qed.

(** X5.  For a line [/dev/<letters><rest>] of the physical-volume
    listing, where [<rest>] is empty or starts with a character that is
    not a letter, the collector protects [<letters>], and that line adds
    nothing else.  So [/dev/sda3] protects [sda], and a physical volume
    on [/dev/mapper/<alias>] protects the word [mapper], not the
    alias. *)
Theorem physical_volume_protects_letters (h : host)
    (line base rest : string) :
  forallb (launched h) (issued_commands h) = true →
  line ∈ lvm_lines h →
  strip line = "/dev/" ++ base ++ rest →
  tok is_alpha base = true →
  stops is_alpha rest →
  (∃ dm prot,
     disk_associations h = Ok dm
     ∧ pop "protected" dm = Ok (prot, delete "protected" dm)
     ∧ base ∈ prot)
  ∧ (∀ d p, d !! "protected" = Some p →
       protect_lvm d line !! "protected" = Some (p ∪ {[base]})).
Proof.
  intros Hall Hline Hstrip Hbase Hrest.
  assert (∀ d p, d !! "protected" = Some p →
            protect_lvm d line !! "protected" = Some (p ∪ {[base]}))
    as Hstep.
  { intros d p Hp. unfold protect_lvm.
    rewrite Hstrip, re_lvm_name by done. by apply add_to_lookup_eq. }
  split; [| exact Hstep].
  destruct (disk_associations_at_volume h line Hall Hline)
    as (d & l1 & l2 & Hdm).
  destruct (steps_grow protect_mounted protect_mounted_other
              protect_mounted_grows (mount_lines h)
              (<["protected" := ∅]> d) ∅) as (p0 & Hp0 & _).
  { apply lookup_insert_eq. }
  destruct (steps_grow protect_lvm protect_lvm_other protect_lvm_grows
              l1 _ p0 Hp0) as (p1 & Hp1 & _).
  destruct (steps_grow protect_lvm protect_lvm_other protect_lvm_grows
              l2 _ _ (Hstep _ _ Hp1)) as (p2 & Hp2 & Hsub).
  eexists _, p2. split; [exact Hdm |].
  split; [by apply pop_protected | set_solver].
Qed.

Lemma physical_volume_protects_letters_witness :
  (∃ dm prot,
     disk_associations host_pv_on_mapper = Ok dm
     ∧ pop "protected" dm = Ok (prot, delete "protected" dm)
     ∧ "mapper" ∈ prot)
  ∧ (∀ d p, d !! "protected" = Some p →
       protect_lvm d "  /dev/mapper/testvol2" !! "protected"
       = Some (p ∪ {["mapper"]})).
Proof.
  apply (physical_volume_protects_letters host_pv_on_mapper
           "  /dev/mapper/testvol2" "mapper" "/testvol2").
  - vm_compute. reflexivity.
  - apply (bool_decide_unpack _). vm_compute. reflexivity.
  - vm_compute. reflexivity.
  - vm_compute. reflexivity.
  - vm_compute. reflexivity.
Defined.

(** ** Resolution and execution together *)

(** X6.  What resolution returns.  When every requested alias that is
    not protected is a key of the relationship map, resolution returns;
    the final aliases are the unprotected ones among the requested
    aliases and the aliases that hold a requested disk; the final disks
    are the unprotected ones among the requested disks and their
    siblings, together with every member of a final alias. *)
Theorem resolve_result
    (device_groups : gmap string (gset string))
    (protected_devices : gset string) (verbose : bool)
    (req_disks req_aliases : gset string) :
  (∀ a, a ∈ req_aliases → a ∉ protected_devices →
        is_Some (device_groups !! a)) →
  ∃ fd fa,
    (resolve device_groups protected_devices verbose
             req_disks req_aliases).2 = Ok (fd, fa)
    ∧ (∀ a, a ∈ fa ↔
          (a ∈ req_aliases
           ∨ ∃ d m, d ∈ req_disks ∧ device_groups !! a = Some m ∧ d ∈ m)
          ∧ a ∉ protected_devices)
    ∧ (∀ x, x ∈ fd ↔
          ((x ∈ req_disks
            ∨ ∃ d g m, d ∈ req_disks ∧ device_groups !! g = Some m
                       ∧ d ∈ m ∧ x ∈ m)
           ∧ x ∉ protected_devices)
          ∨ ∃ a m, a ∈ fa ∧ device_groups !! a = Some m ∧ x ∈ m).
Proof.
  intros Hkeys.
  destruct (resolve_returns device_groups protected_devices verbose
              req_disks req_aliases) as (fd & Hres & Hchar).
  { intros a [[Ha | (d & m & _ & Hm & _)] Hfree]%filtered_aliases;
      [by apply Hkeys | by eexists]. }
  eexists fd, _. split; [exact Hres |]. split.
  - intros a. apply filtered_aliases.
  - intros x. rewrite Hchar, filtered_disks. done.
Qed.

Lemma resolve_result_witness :
  ∃ fd fa,
    (resolve sample_groups {["sda"; "sdc"]} false {["sdg"]} {["testvol1"]}).2
    = Ok (fd, fa)
    ∧ (∀ a, a ∈ fa ↔
          (a ∈ ({["testvol1"]} : gset string)
           ∨ ∃ d m, d ∈ ({["sdg"]} : gset string)
                    ∧ sample_groups !! a = Some m ∧ d ∈ m)
          ∧ a ∉ ({["sda"; "sdc"]} : gset string))
    ∧ (∀ x, x ∈ fd ↔
          ((x ∈ ({["sdg"]} : gset string)
            ∨ ∃ d g m, d ∈ ({["sdg"]} : gset string)
                       ∧ sample_groups !! g = Some m ∧ d ∈ m ∧ x ∈ m)
           ∧ x ∉ ({["sda"; "sdc"]} : gset string))
          ∨ ∃ a m, a ∈ fa ∧ sample_groups !! a = Some m ∧ x ∈ m).
Proof.
  apply (resolve_result sample_groups {["sda"; "sdc"]} false
           {["sdg"]} {["testvol1"]}).
  intros a ->%elem_of_singleton _. vm_compute. eauto.
Defined.

Lemma expand_group_skip verbose disk l : ∀ rq,
  (∀ g m, (g, m) ∈ l → disk ∉ m) →
  foldl (expand_group verbose disk) rq l = rq.
Proof.
  induction l as [|[g m] l IH]; intros rq Hout; simpl; [done |].
  destruct (decide (disk ∈ m)) as [Hin|_].
  - exfalso. apply (Hout g m); [apply list_elem_of_here | exact Hin].
  - apply IH. intros g' m' Hin. apply (Hout g' m').
    by apply list_elem_of_further.
Qed.

Lemma sibling_expansion_skip device_groups verbose rq :
  (∀ d g m, d ∈ disks rq → device_groups !! g = Some m → d ∉ m) →
  sibling_expansion device_groups verbose rq = rq.
Proof.
  intros Hout. unfold sibling_expansion.
  assert (∀ d, d ∈ elements (disks rq) → d ∈ disks rq) as Hin
    by (intros d; apply elem_of_elements).
  revert Hin. generalize (elements (disks rq)) as ds.
  induction ds as [|d ds IH]; intros Hin; simpl; [done |].
  rewrite expand_group_skip; [apply IH; set_solver |].
  intros g m Hgm%elem_of_map_to_list. eapply Hout; [| exact Hgm].
  apply Hin. set_solver.
Qed.

(** X7.  Disks that belong to no multipath device and are not
    protected, requested without aliases, are returned as they were
    requested: no alias is added, no disk is added or dropped, and
    nothing is printed. *)
Theorem plain_disks_resolve_to_themselves
    (device_groups : gmap string (gset string))
    (protected_devices : gset string) (verbose : bool)
    (req_disks : gset string) :
  (∀ d g m, d ∈ req_disks → device_groups !! g = Some m → d ∉ m) →
  (∀ d, d ∈ req_disks → d ∉ protected_devices) →
  resolve device_groups protected_devices verbose req_disks ∅
  = ([], Ok (req_disks, ∅)).
Proof.
  intros Hplain Hfree. unfold resolve, filtered_request.
  rewrite sibling_expansion_skip by done.
  unfold protection_check, selected_protected_devices. simpl.
  case_decide as Hsel; [| exfalso; apply Hsel; set_solver].
  unfold materialize. simpl. by rewrite elements_empty.
Qed.

Lemma plain_disks_resolve_to_themselves_witness :
  resolve sample_groups {["sda"]} true {["sdz"]} ∅ = ([], Ok ({["sdz"]}, ∅)).
Proof.
  apply (plain_disks_resolve_to_themselves sample_groups {["sda"]} true
           {["sdz"]}).
  - intros d g m ->%elem_of_singleton Hg.
    assert (g ∈ dom sample_groups) as Hdom by (apply elem_of_dom; eauto).
    assert (dom sample_groups = {["testvol1"; "testvol2"]}) as Hkeys
      by (vm_compute; reflexivity).
    rewrite Hkeys in Hdom.
    apply elem_of_union in Hdom as [->%elem_of_singleton | ->%elem_of_singleton];
      vm_compute in Hg; injection Hg as <-;
      apply (bool_decide_unpack _); vm_compute; reflexivity.
  - intros d ->%elem_of_singleton.
    apply (bool_decide_unpack _). vm_compute. reflexivity.
Defined.

(** Resolution only prints. *)
Lemma expand_group_prints verbose disk l : ∀ rq,
  Forall (fun e => acts e = false) (printed rq) →
  Forall (fun e => acts e = false)
         (printed (foldl (expand_group verbose disk) rq l)).
Proof.
  induction l as [|[g m] l IH]; intros rq Hrq; simpl; [done |].
  apply IH. unfold expand_group. destruct (decide (disk ∈ m)); [| done].
  simpl. apply Forall_app. split; [done |]. by destruct verbose; repeat constructor.
Qed.

Lemma resolve_prints device_groups protected_devices verbose rd ra :
  Forall (fun e => acts e = false)
         (resolve device_groups protected_devices verbose rd ra).1.
Proof.
  unfold resolve, filtered_request. simpl.
  assert (Forall (fun e => acts e = false)
            (printed (sibling_expansion device_groups verbose
                        (Request rd ra [])))) as Hexp.
  { unfold sibling_expansion. simpl.
    generalize (elements rd) as ds.
    assert (Forall (fun e => acts e = false) (printed (Request rd ra [])))
      as Hinit by constructor.
    revert Hinit. generalize (Request rd ra []) as rq.
    intros rq Hrq ds. revert rq Hrq.
    induction ds as [|d ds IH]; intros rq Hrq; simpl; [done |].
    apply IH. by apply expand_group_prints. }
  unfold protection_check. case_decide; [done |]. simpl.
  apply Forall_app. split; [done |]. by destruct verbose; repeat constructor.
Qed.

(** What the two loops of the executor do, event by event. *)
Lemma flush_loop_events h l :
  Forall (fun e => acts e = true → ∃ a, a ∈ l ∧ e = Call (flush_cmd a))
         (for_all (flush_alias h) l).1.
Proof.
  induction l as [|a l IH]; [by constructor |].
  rewrite for_all_cons.
  assert (Forall (fun e => acts e = true →
                    ∃ b, b ∈ a :: l ∧ e = Call (flush_cmd b))
                 (for_all (flush_alias h) l).1) as IH'.
  { eapply Forall_impl; [exact IH |]. intros e He Hact.
    destruct (He Hact) as (b & ? & ?). exists b. set_solver. }
  clear IH. destruct (for_all (flush_alias h) l) as [tr r].
  unfold flush_alias. simpl in *.
  destruct (call h (flush_cmd a)) as [code|]; simpl.
  - destruct (decide (code ≠ 0%Z)); simpl.
    + constructor; [intros _; exists a; set_solver |].
      constructor; [done | exact IH'].
    + constructor; [intros _; exists a; set_solver | exact IH'].
  - constructor; [intros _; exists a; set_solver | constructor].
Qed.

Lemma delete_loop_events h l :
  Forall (fun e =>
            ∃ d, d ∈ l
              ∧ (e = WriteFile (state_file d) ("offline" ++ newline)
                 ∨ (e = WriteFile (delete_file d) ("1" ++ newline)
                    ∧ write_file h (state_file d) ("offline" ++ newline)
                      = true)))
         (for_all (delete_disk h) l).1.
Proof.
  induction l as [|d l IH]; [by constructor |].
  rewrite for_all_cons.
  assert (Forall (fun e =>
            ∃ d', d' ∈ d :: l
              ∧ (e = WriteFile (state_file d') ("offline" ++ newline)
                 ∨ (e = WriteFile (delete_file d') ("1" ++ newline)
                    ∧ write_file h (state_file d') ("offline" ++ newline)
                      = true)))
                 (for_all (delete_disk h) l).1) as IH'.
  { eapply Forall_impl; [exact IH |]. intros e (d' & ? & ?).
    exists d'. set_solver. }
  clear IH. destruct (for_all (delete_disk h) l) as [tr r].
  unfold delete_disk, write_control. simpl in *.
  destruct (write_file h (state_file d) ("offline" ++ newline)) eqn:Hs; simpl.
  - destruct (write_file h (delete_file d) ("1" ++ newline)); simpl.
    + constructor; [exists d; set_solver |].
      constructor; [exists d; set_solver | exact IH'].
    + constructor; [exists d; set_solver |].
      constructor; [exists d; set_solver | constructor].
  - constructor; [exists d; set_solver | constructor].
Qed.

Lemma flush_and_delete_events h verbose ds als e :
  e ∈ (flush_and_delete h verbose ds als).1 →
  acts e = true →
  (∃ a, a ∈ als ∧ e = Call (flush_cmd a))
  ∨ (∃ d, d ∈ ds
       ∧ (e = WriteFile (state_file d) ("offline" ++ newline)
          ∨ (e = WriteFile (delete_file d) ("1" ++ newline)
             ∧ write_file h (state_file d) ("offline" ++ newline) = true))).
Proof.
  unfold flush_and_delete. simpl.
  pose proof (flush_loop_events h (elements als)) as Hflush.
  pose proof (delete_loop_events h (elements ds)) as Hdelete.
  destruct (for_all (flush_alias h) (elements als)) as [tr1 [[]|ex]];
    simpl in *.
  - destruct (for_all (delete_disk h) (elements ds)) as [tr2 r2]; simpl in *.
    rewrite !elem_of_app.
    intros [Hsay | [Hin | [Hsay | Hin]]] Hact.
    + destruct verbose; simpl in Hsay; [| by apply elem_of_nil in Hsay].
      apply list_elem_of_singleton in Hsay as ->. done.
    + left. rewrite Forall_forall in Hflush.
      destruct (Hflush e Hin Hact) as (a & Ha%elem_of_elements & ->). eauto.
    + destruct verbose; simpl in Hsay; [| by apply elem_of_nil in Hsay].
      apply list_elem_of_singleton in Hsay as ->. done.
    + right. rewrite Forall_forall in Hdelete.
      destruct (Hdelete e Hin) as (d & Hd%elem_of_elements & ?). eauto.
  - rewrite !elem_of_app.
    intros [Hsay | Hin] Hact.
    + destruct verbose; simpl in Hsay; [| by apply elem_of_nil in Hsay].
      apply list_elem_of_singleton in Hsay as ->. done.
    + left. rewrite Forall_forall in Hflush.
      destruct (Hflush e Hin Hact) as (a & Ha%elem_of_elements & ->). eauto.
Qed.

Lemma execute_events h assume_yes verbose ds als e :
  e ∈ (execute h assume_yes verbose ds als).1 →
  acts e = true →
  (∃ a, a ∈ als ∧ e = Call (flush_cmd a))
  ∨ (∃ d, d ∈ ds
       ∧ (e = WriteFile (state_file d) ("offline" ++ newline)
          ∨ (e = WriteFile (delete_file d) ("1" ++ newline)
             ∧ write_file h (state_file d) ("offline" ++ newline) = true))).
Proof.
  unfold execute. destruct assume_yes; [apply flush_and_delete_events |].
  case_decide; [by intros ?%elem_of_nil |]. simpl.
  destruct (raw_input h (warning_message ds als)) as [response|]; simpl.
  - destruct (is_yes response); simpl.
    + pose proof (flush_and_delete_events h verbose ds als e) as Hev.
      destruct (flush_and_delete h verbose ds als) as [tr r]. simpl in *.
      intros [->|Hin]%elem_of_cons Hact; [done | by apply Hev].
    + by intros ->%list_elem_of_singleton.
  - by intros ->%list_elem_of_singleton.
Qed.

(** [delete_devices], stage by stage. *)
Lemma delete_devices_unfold h rd ra assume_yes verbose :
  delete_devices h rd ra assume_yes verbose
  = match disk_associations h with
    | Raise ex => ([], Raise ex)
    | Ok dm =>
        match dm !! "protected" with
        | None => ([], Raise (KeyError "protected"))
        | Some prot =>
            match resolve (delete "protected" dm) prot verbose rd ra with
            | (tr, Ok (fd, fa)) =>
                let '(tr', r) := execute h assume_yes verbose fd fa in
                ((tr ++ tr')%list, r)
            | (tr, Raise ex) => (tr, Raise ex)
            end
        end
    end.
Proof.
  unfold delete_devices, lift, pop, mbind, run_bind.
  destruct (disk_associations h) as [dm|]; [| reflexivity].
  destruct (dm !! "protected") as [prot|]; [| reflexivity].
  destruct (resolve (delete "protected" dm) prot verbose rd ra)
    as [tr [[fd fa]|ex]]; [| reflexivity].
  destruct (execute h assume_yes verbose fd fa) as [tr' r']. reflexivity.
Qed.

(** Every event of a run of [delete_devices] was printed by resolution
    or comes from the executor, run on what resolution returned. *)
Lemma delete_devices_trace h rd ra assume_yes verbose e :
  e ∈ (delete_devices h rd ra assume_yes verbose).1 →
  ∃ dm prot,
    disk_associations h = Ok dm
    ∧ dm !! "protected" = Some prot
    ∧ (e ∈ (resolve (delete "protected" dm) prot verbose rd ra).1
       ∨ ∃ fd fa,
           (resolve (delete "protected" dm) prot verbose rd ra).2
           = Ok (fd, fa)
           ∧ e ∈ (execute h assume_yes verbose fd fa).1).
Proof.
  rewrite delete_devices_unfold.
  destruct (disk_associations h) as [dm|]; [| by intros ?%elem_of_nil].
  destruct (dm !! "protected") as [prot|] eqn:Hprot;
    [| by intros ?%elem_of_nil].
  destruct (resolve (delete "protected" dm) prot verbose rd ra)
    as [tr [[fd fa]|ex]] eqn:Hres.
  - destruct (execute h assume_yes verbose fd fa) as [tr' r'] eqn:Hex.
    cbn [fst]. intros [Hin|Hin]%elem_of_app.
    + exists dm, prot. rewrite Hres. split_and!; [done | done | by left].
    + exists dm, prot. rewrite Hres. split_and!; [done | done |].
      right. exists fd, fa. by rewrite Hex.
  - intros Hin. exists dm, prot. rewrite Hres.
    split_and!; [done | done | by left].
Qed.

(** X8.  A run of [delete_devices] acts only on what its resolution
    returned: every command it runs is the flush of a final alias, every
    file it writes is the state or the delete file of a final disk, and
    a delete file is written only after the offline write for the same
    disk succeeded. *)
Theorem delete_devices_acts_on_resolved_set (h : host)
    (rd ra : gset string) (assume_yes verbose : bool) (e : event) :
  e ∈ (delete_devices h rd ra assume_yes verbose).1 →
  acts e = true →
  ∃ dm prot fd fa,
    disk_associations h = Ok dm
    ∧ pop "protected" dm = Ok (prot, delete "protected" dm)
    ∧ (resolve (delete "protected" dm) prot verbose rd ra).2 = Ok (fd, fa)
    ∧ ((∃ a, a ∈ fa ∧ e = Call (flush_cmd a))
       ∨ (∃ d, d ∈ fd
            ∧ (e = WriteFile (state_file d) ("offline" ++ newline)
               ∨ (e = WriteFile (delete_file d) ("1" ++ newline)
                  ∧ write_file h (state_file d) ("offline" ++ newline)
                    = true)))).
Proof.
  intros Hin Hact.
  apply delete_devices_trace in Hin
    as (dm & prot & Hdm & Hprot & [Hin | (fd & fa & Hres & Hin)]).
  - pose proof (resolve_prints (delete "protected" dm) prot verbose rd ra)
      as Hprints.
    rewrite Forall_forall in Hprints. specialize (Hprints e Hin). congruence.
  - exists dm, prot, fd, fa.
    split_and!; [done | by apply pop_protected | done |].
    by apply (execute_events h assume_yes verbose).
Qed.

Lemma delete_devices_acts_on_resolved_set_witness :
  ∃ dm prot fd fa,
    disk_associations host_sample = Ok dm
    ∧ pop "protected" dm = Ok (prot, delete "protected" dm)
    ∧ (resolve (delete "protected" dm) prot false {["sdz"]} ∅).2 = Ok (fd, fa)
    ∧ ((∃ a, a ∈ fa ∧ WriteFile (delete_file "sdz") ("1" ++ newline)
                      = Call (flush_cmd a))
       ∨ (∃ d, d ∈ fd
            ∧ (WriteFile (delete_file "sdz") ("1" ++ newline)
               = WriteFile (state_file d) ("offline" ++ newline)
               ∨ (WriteFile (delete_file "sdz") ("1" ++ newline)
                  = WriteFile (delete_file d) ("1" ++ newline)
                  ∧ write_file host_sample (state_file d)
                      ("offline" ++ newline) = true)))).
Proof.
  apply (delete_devices_acts_on_resolved_set host_sample {["sdz"]} ∅
           true false (WriteFile (delete_file "sdz") ("1" ++ newline))).
  - apply (bool_decide_unpack _). vm_compute. reflexivity.
  - reflexivity.
Defined.

(** X9.  Without [assume_yes], when the operator answers anything but
    [y] or [Y], a run of [delete_devices] flushes nothing and writes no
    control file. *)
Theorem declined_run_touches_nothing (h : host)
    (rd ra : gset string) (verbose : bool) (e : event) :
  (∀ prompt response,
     raw_input h prompt = Some response → is_yes response = false) →
  e ∈ (delete_devices h rd ra false verbose).1 →
  acts e = false.
Proof.
  intros Hno Hin.
  apply delete_devices_trace in Hin
    as (dm & prot & Hdm & Hprot & [Hin | (fd & fa & Hres & Hin)]).
  - pose proof (resolve_prints (delete "protected" dm) prot verbose rd ra)
      as Hprints.
    rewrite Forall_forall in Hprints. by apply Hprints.
  - unfold execute in Hin. case_decide; [by apply elem_of_nil in Hin |].
    simpl in Hin.
    destruct (raw_input h (warning_message fd fa)) as [response|] eqn:Hr;
      simpl in Hin.
    + rewrite (Hno _ _ Hr) in Hin. simpl in Hin.
      by apply list_elem_of_singleton in Hin as ->.
    + by apply list_elem_of_singleton in Hin as ->.
Qed.

Lemma declined_run_touches_nothing_witness :
  acts (RawInput (warning_message {["sdz"]} ∅)) = false.
Proof.
  apply (declined_run_touches_nothing host_operator_declines {["sdz"]} ∅
           false).
  - intros prompt response [= <-]. reflexivity.
  - apply (bool_decide_unpack _). vm_compute. reflexivity.
Defined.

Lemma length_append s t :
  String.length (s ++ t) = String.length s + String.length t.
Proof.
  induction s as [|c s IH]; [done |]. rewrite append_cons. simpl. by rewrite IH.
Qed.

Lemma append_inj_r s s' t : s ++ t = s' ++ t → s = s'.
Proof.
  revert s'. induction s as [|c s IH]; intros [|c' s'] H.
  - done.
  - apply (f_equal String.length) in H.
    rewrite append_empty_l, append_cons in H. simpl in H.
    rewrite length_append in H. lia.
  - apply (f_equal String.length) in H.
    rewrite append_empty_l, append_cons in H. simpl in H.
    rewrite length_append in H. lia.
  - rewrite !append_cons in H. injection H as -> H. f_equal. by apply IH.
Qed.

Lemma flush_cmd_inj a b : flush_cmd a = flush_cmd b → a = b.
Proof. unfold flush_cmd. apply String.app_inj. Qed.

Lemma state_file_inj a b : state_file a = state_file b → a = b.
Proof.
  unfold state_file. intros H%String.app_inj. by apply append_inj_r in H.
Qed.

Lemma delete_file_inj a b : delete_file a = delete_file b → a = b.
Proof.
  unfold delete_file. intros H%String.app_inj. by apply append_inj_r in H.
Qed.

Lemma call_flush_inj a b : Call (flush_cmd a) = Call (flush_cmd b) → a = b.
Proof. intros H. apply flush_cmd_inj. congruence. Qed.

Lemma write_state_inj a b x y :
  WriteFile (state_file a) x = WriteFile (state_file b) y → a = b.
Proof. intros H. apply state_file_inj. congruence. Qed.

Lemma write_delete_inj a b x y :
  WriteFile (delete_file a) x = WriteFile (delete_file b) y → a = b.
Proof. intros H. apply delete_file_inj. congruence. Qed.

Lemma offline_is_not_delete p q :
  WriteFile p ("offline" ++ newline) ≠ WriteFile q ("1" ++ newline).
Proof.
  intros H. assert ("offline" ++ newline = "1" ++ newline) as Hdata
    by congruence.
  vm_compute in Hdata. discriminate.
Qed.

(** X10.  Across the whole run, no protected alias is ever flushed; and
    a protected disk is never taken offline or deleted, provided every
    alias that counts it among its members is protected too. *)
Theorem protected_devices_are_left_alone (h : host)
    (rd ra : gset string) (assume_yes verbose : bool)
    (dm : gmap string (gset string)) (prot : gset string) :
  disk_associations h = Ok dm →
  dm !! "protected" = Some prot →
  (∀ a, a ∈ prot →
        Call (flush_cmd a) ∉ (delete_devices h rd ra assume_yes verbose).1)
  ∧ (∀ d, d ∈ prot →
          (∀ a m, delete "protected" dm !! a = Some m → d ∈ m → a ∈ prot) →
          (WriteFile (state_file d) ("offline" ++ newline)
           ∉ (delete_devices h rd ra assume_yes verbose).1)
          ∧ (WriteFile (delete_file d) ("1" ++ newline)
             ∉ (delete_devices h rd ra assume_yes verbose).1)).
Proof.
  intros Hdm Hprot.
  assert (∀ e, e ∈ (delete_devices h rd ra assume_yes verbose).1 →
            acts e = true →
            ∃ fd fa,
              (resolve (delete "protected" dm) prot verbose rd ra).2
              = Ok (fd, fa)
              ∧ ((∃ a, a ∈ fa ∧ e = Call (flush_cmd a))
                 ∨ (∃ d, d ∈ fd
                      ∧ (e = WriteFile (state_file d) ("offline" ++ newline)
                         ∨ e = WriteFile (delete_file d) ("1" ++ newline)))))
    as Hev.
  { intros e Hin Hact.
    apply delete_devices_trace in Hin
      as (dm' & prot' & Hdm' & Hprot' & [Hin | (fd & fa & Hres & Hin)]).
    - pose proof (resolve_prints (delete "protected" dm') prot' verbose rd ra)
        as Hprints.
      rewrite Forall_forall in Hprints. specialize (Hprints e Hin). congruence.
    - assert (dm' = dm) as -> by congruence.
      assert (prot' = prot) as -> by congruence.
      exists fd, fa. split; [done |].
      destruct (execute_events h assume_yes verbose fd fa e Hin Hact)
        as [?|(d & ? & [?|[? _]])]; [by left | right; eauto | right; eauto]. }
  assert (∀ d fd fa,
            (resolve (delete "protected" dm) prot verbose rd ra).2
            = Ok (fd, fa) →
            d ∈ prot →
            (∀ a m, delete "protected" dm !! a = Some m → d ∈ m → a ∈ prot) →
            d ∉ fd) as Hdisk.
  { intros d fd fa Hres Hd Hall Hin.
    apply (final_disks_protected _ _ _ _ _ _ _ _ Hres Hd) in Hin
      as (a & m & Ha & Hm & Hdm').
    by apply (final_aliases_unprotected _ _ _ _ _ _ _ _ Hres (Hall a m Hm Hdm')). }
  split.
  - intros a Ha Hin.
    destruct (Hev _ Hin eq_refl)
      as (fd & fa & Hres & [(a' & Ha' & ->%call_flush_inj)
                           | (d & _ & [?|?])]); [| done | done].
    by apply (final_aliases_unprotected _ _ _ _ _ _ _ _ Hres Ha).
  - intros d Hd Hall. split; intros Hin.
    + destruct (Hev _ Hin eq_refl)
        as (fd & fa & Hres & [(a' & _ & ?) | (d' & Hd' & [Heq|Heq])]);
        [done | |].
      * apply write_state_inj in Heq as ->. by eapply Hdisk.
      * by apply offline_is_not_delete in Heq.
    + destruct (Hev _ Hin eq_refl)
        as (fd & fa & Hres & [(a' & _ & ?) | (d' & Hd' & [Heq|Heq])]);
        [done | |].
      * symmetry in Heq. by apply offline_is_not_delete in Heq.
      * apply write_delete_inj in Heq as ->. by eapply Hdisk.
Qed.

Lemma protected_devices_are_left_alone_witness :
  (∀ a, a ∈ ({["sda"; "testvol1"; "sdc"; "sdd"]} : gset string) →
        Call (flush_cmd a)
        ∉ (delete_devices host_testvol1_mounted {["sdc"; "sdg"]}
             {["testvol1"]} true false).1)
  ∧ (∀ d, d ∈ ({["sda"; "testvol1"; "sdc"; "sdd"]} : gset string) →
          (∀ a m,
             delete "protected"
               (<["protected" := {["sda"; "testvol1"; "sdc"; "sdd"]}]>
                  sample_groups) !! a = Some m →
             d ∈ m → a ∈ ({["sda"; "testvol1"; "sdc"; "sdd"]} : gset string)) →
          (WriteFile (state_file d) ("offline" ++ newline)
           ∉ (delete_devices host_testvol1_mounted {["sdc"; "sdg"]}
                {["testvol1"]} true false).1)
          ∧ (WriteFile (delete_file d) ("1" ++ newline)
             ∉ (delete_devices host_testvol1_mounted {["sdc"; "sdg"]}
                  {["testvol1"]} true false).1)).
Proof.
  apply (protected_devices_are_left_alone host_testvol1_mounted
           {["sdc"; "sdg"]} {["testvol1"]} true false
           (<["protected" := {["sda"; "testvol1"; "sdc"; "sdd"]}]>
              sample_groups)).
  - vm_compute. reflexivity.
  - vm_compute. reflexivity.
Defined.

(** ** [main] *)

Lemma lit_spec l : ∀ s r, lit l s = Some r ↔ s = l ++ r.
Proof.
  induction l as [|a l IH]; intros s r.
  - simpl. rewrite append_empty_l. naive_solver.
  - rewrite append_cons. destruct s as [|b s]; simpl; [naive_solver |].
    destruct (Ascii.eqb_spec a b) as [->|Hne].
    + rewrite IH. naive_solver.
    + naive_solver.
Qed.

Lemma contains_cons sub c r :
  contains sub (String c r)
  = match lit sub (String c r) with
    | Some _ => true
    | None => contains sub r
    end.
Proof. reflexivity. Qed.

(** X11.  The test of line 314 is a substring test on the raw text of
    the multipath listing: an argument is accepted as an alias exactly
    when it occurs somewhere in that text.  So any part of a listed
    name passes, and the empty string always does. *)
Theorem accepted_alias_is_substring (multipath_devices arg : string) :
  (accepted_alias multipath_devices arg = true
   ↔ ∃ before after, multipath_devices = before ++ arg ++ after)
  ∧ accepted_alias multipath_devices "" = true.
Proof.
  unfold accepted_alias. split.
  - split.
    + induction multipath_devices as [|c s IH].
      * simpl. destruct (lit arg "") as [r|] eqn:Hlit; [| done].
        intros _. apply lit_spec in Hlit. by exists "", r.
      * rewrite contains_cons.
        destruct (lit arg (String c s)) as [r|] eqn:Hlit.
        -- intros _. apply lit_spec in Hlit. by exists "", r.
        -- intros (before & after & ->)%IH.
           by exists (String c before), after.
    + intros (before & after & ->).
      induction before as [|c before IH].
      * rewrite append_empty_l.
        destruct (arg ++ after) as [|c s] eqn:Hs.
        -- simpl. assert (lit arg "" = Some after) as ->; [| done].
           apply lit_spec. by rewrite Hs.
        -- rewrite contains_cons.
           assert (lit arg (String c s) = Some after) as ->; [| done].
           apply lit_spec. by rewrite Hs.
      * rewrite append_cons, contains_cons, IH.
        by destruct (lit arg _).
  - by destruct multipath_devices.
Qed.

Lemma valid_disks_spec block_devices d :
  d ∈ Cli.valid_disks block_devices
  ↔ d ∈ block_devices ∧ Cli.starts_sd d = true.
Proof.
  unfold Cli.valid_disks.
  assert (∀ acc : gset string,
            d ∈ foldl (fun valid disk =>
                         if Cli.starts_sd disk then valid ∪ {[disk]}
                         else valid) acc block_devices
            ↔ d ∈ acc ∨ (d ∈ block_devices ∧ Cli.starts_sd d = true))
    as Hfold.
  { induction block_devices as [|b l IH]; intros acc; simpl.
    - split; [auto |]. intros [? | [?%elem_of_nil _]]; done.
    - rewrite IH. destruct (Cli.starts_sd b) eqn:Hb.
      + rewrite elem_of_union, elem_of_singleton, elem_of_cons.
        split.
        * intros [[?| ->] | [? ?]]; auto.
        * intros [? | [[->|?] ?]]; auto.
      + rewrite elem_of_cons. split.
        * intros [? | [? ?]]; auto.
        * intros [? | [[->|?] ?]]; [auto | congruence | auto]. }
  rewrite Hfold. set_solver.
Qed.

Lemma starts_sd_not_option d :
  Cli.starts_sd d = true → d ∉ Cli.option_words.
Proof.
  intros H Hin. unfold Cli.option_words in Hin.
  repeat (apply elem_of_cons in Hin as [-> | Hin];
          [vm_compute in H; discriminate |]).
  by apply elem_of_nil in Hin.
Qed.

Lemma not_option_tests arg :
  arg ∉ Cli.option_words →
  bool_decide (arg ∈ ["-h"; "--help"]) = false
  ∧ bool_decide (arg ∈ ["-y"; "--assume_yes"]) = false
  ∧ bool_decide (arg ∈ ["-v"; "--verbose"]) = false
  ∧ bool_decide (arg ∈ ["-s"; "--standard"]) = false
  ∧ bool_decide (arg ∈ ["-m"; "--multipath"]) = false.
Proof.
  intros Hno. unfold Cli.option_words in Hno.
  split_and!; apply bool_decide_eq_false_2; intros Hin; apply Hno;
    set_unfold; naive_solver.
Qed.

(** The loop body on an argument that is not an option. *)
Lemma parse_arg_name dedent valid text o arg :
  arg ∉ Cli.option_words →
  Cli.parse_arg dedent valid text o arg
  = if Cli.standard o then
      if bool_decide (arg ∈ valid) then
        Cli.Parsed (Cli.Options (Cli.assume_yes o) (Cli.verbose o)
                      (Cli.disks o ∪ {[arg]}) (Cli.aliases o)
                      (Cli.standard o) (Cli.multipath o))
      else Cli.Exits [] (Cli.ExitMessage
                           (dedent (Cli.invalid_disk_source arg valid)))
    else if Cli.multipath o then
      if accepted_alias text arg then
        Cli.Parsed (Cli.Options (Cli.assume_yes o) (Cli.verbose o)
                      (Cli.disks o) (Cli.aliases o ∪ {[arg]})
                      (Cli.standard o) (Cli.multipath o))
      else Cli.Exits [] (Cli.ExitMessage
                           (dedent (Cli.invalid_alias_source arg text)))
    else
      Cli.Exits (Print ("Error: unrecognized argument " ++ arg)
                 :: Cli.print_usage dedent)
                (Cli.ExitStatus 1).
Proof.
  intros (H1 & H2 & H3 & H4 & H5)%not_option_tests.
  unfold Cli.parse_arg. by rewrite H1, H2, H3, H4, H5.
Qed.

Lemma parse_args_app dedent valid text l1 : ∀ l2 o,
  Cli.parse_args dedent valid text (l1 ++ l2) o
  = match Cli.parse_args dedent valid text l1 o with
    | Cli.Parsed o' => Cli.parse_args dedent valid text l2 o'
    | Cli.Exits printed a => Cli.Exits printed a
    end.
Proof.
  induction l1 as [|arg l1 IH]; intros l2 o; simpl; [done |].
  destruct (Cli.parse_arg dedent valid text o arg); [apply IH | done].
Qed.



(** What the loop prints before it leaves the program is text. *)
Lemma parse_args_prints dedent valid text args : ∀ o printed a,
  Cli.parse_args dedent valid text args o = Cli.Exits printed a →
  Forall (fun e => acts e = false) printed.
Proof.
  induction args as [|arg args IH]; intros o printed a; simpl; [done |].
  destruct (Cli.parse_arg dedent valid text o arg) as [o1|pr a1] eqn:Harg.
  - apply IH.
  - intros [= <- <-]. revert Harg. unfold Cli.parse_arg, Cli.print_usage.
    repeat (case_bool_decide;
            [first [discriminate | intros [= <- <-]; by repeat constructor]
            |]).
    destruct (Cli.standard o).
    + case_bool_decide; [done |]. intros [= <- <-]. constructor.
    + destruct (Cli.multipath o).
      * destruct (accepted_alias text arg); [done |].
        intros [= <- <-]. constructor.
      * intros [= <- <-]. by repeat constructor.
Qed.



(** X13.  When [main] ends through [sys.exit] -- not root, help asked,
    an argument refused or not understood, nothing selected -- no
    multipath device has been flushed and no control file written. *)
Theorem main_exit_touches_nothing (dedent : string → string)
    (h : host) (p : Cli.process) (tr : list event) (a : Cli.exit_arg)
    (e : event) :
  Cli.main dedent h p = (tr, Cli.Exit a) →
  e ∈ tr →
  acts e = false.
Proof.
  unfold Cli.main. case_decide as Huid.
  { intros [= <- _] Hin. by apply elem_of_nil in Hin. }
  destruct (query h cmd_multipath) as [text|ex]; [| done].
  destruct (Cli.parse_args _ _ _ _ _) as [o|printed a'] eqn:Hparse.
  - case_decide.
    + intros [= <- _] Hin. by apply elem_of_nil in Hin.
    + by destruct (delete_devices _ _ _ _ _).
  - intros [= <- _] Hin.
    pose proof (parse_args_prints _ _ _ _ _ _ _ Hparse) as Hprints.
    rewrite Forall_forall in Hprints. by apply Hprints.
Qed.

Lemma main_exit_touches_nothing_witness :
  acts (Print "Error: unrecognized argument sdb") = false.
Proof.
  apply (main_exit_touches_nothing (fun s => s) host_sample
           (root_process ["-s"; "sda"; "-y"; "sdb"])
           [Print "Error: unrecognized argument sdb"; Print Cli.usage_source]
           (Cli.ExitStatus 1)).
  - vm_compute. reflexivity.
  - apply (bool_decide_unpack _). vm_compute. reflexivity.
Defined.

Lemma parse_arg_yes dedent valid text o flag :
  flag ∈ ["-y"; "--assume_yes"] →
  Cli.parse_arg dedent valid text o flag
  = Cli.Parsed (Cli.Options true (Cli.verbose o) (Cli.disks o)
                  (Cli.aliases o) false false).
Proof.
  intros Hflag. unfold Cli.parse_arg.
  rewrite (bool_decide_eq_false_2 (flag ∈ ["-h"; "--help"])).
  2: { set_unfold. naive_solver. }
  by rewrite (bool_decide_eq_true_2 _ Hflag).
Qed.

Lemma parse_arg_verbose dedent valid text o flag :
  flag ∈ ["-v"; "--verbose"] →
  Cli.parse_arg dedent valid text o flag
  = Cli.Parsed (Cli.Options (Cli.assume_yes o) true (Cli.disks o)
                  (Cli.aliases o) false false).
Proof.
  intros Hflag. unfold Cli.parse_arg.
  rewrite (bool_decide_eq_false_2 (flag ∈ ["-h"; "--help"])).
  2: { set_unfold. naive_solver. }
  rewrite (bool_decide_eq_false_2 (flag ∈ ["-y"; "--assume_yes"])).
  2: { set_unfold. naive_solver. }
  by rewrite (bool_decide_eq_true_2 _ Hflag).
Qed.

Lemma parse_arg_standard dedent valid text o flag :
  flag ∈ ["-s"; "--standard"] →
  Cli.parse_arg dedent valid text o flag
  = Cli.Parsed (Cli.Options (Cli.assume_yes o) (Cli.verbose o) (Cli.disks o)
                  (Cli.aliases o) true false).
Proof.
  intros Hflag. unfold Cli.parse_arg.
  rewrite (bool_decide_eq_false_2 (flag ∈ ["-h"; "--help"])).
  2: { set_unfold. naive_solver. }
  rewrite (bool_decide_eq_false_2 (flag ∈ ["-y"; "--assume_yes"])).
  2: { set_unfold. naive_solver. }
  rewrite (bool_decide_eq_false_2 (flag ∈ ["-v"; "--verbose"])).
  2: { set_unfold. naive_solver. }
  by rewrite (bool_decide_eq_true_2 _ Hflag).
Qed.

Lemma parse_arg_multipath dedent valid text o flag :
  flag ∈ ["-m"; "--multipath"] →
  Cli.parse_arg dedent valid text o flag
  = Cli.Parsed (Cli.Options (Cli.assume_yes o) (Cli.verbose o) (Cli.disks o)
                  (Cli.aliases o) false true).
Proof.
  intros Hflag. unfold Cli.parse_arg.
  rewrite (bool_decide_eq_false_2 (flag ∈ ["-h"; "--help"])).
  2: { set_unfold. naive_solver. }
  rewrite (bool_decide_eq_false_2 (flag ∈ ["-y"; "--assume_yes"])).
  2: { set_unfold. naive_solver. }
  rewrite (bool_decide_eq_false_2 (flag ∈ ["-v"; "--verbose"])).
  2: { set_unfold. naive_solver. }
  rewrite (bool_decide_eq_false_2 (flag ∈ ["-s"; "--standard"])).
  2: { set_unfold. naive_solver. }
  by rewrite (bool_decide_eq_true_2 _ Hflag).
Qed.

(** X14.  The options [-y] and [-v] end the list of names opened by
    [-s] or [-m]: a name that follows one of them, in any position, is
    not understood, and the program prints the error and the usage and
    exits with status 1 without looking at the remaining arguments. *)
Theorem option_ends_the_name_list (dedent : string → string)
    (valid : gset string) (text : string)
    (before rest : list string) (flag name : string)
    (o0 o : Cli.options) :
  Cli.parse_args dedent valid text before o0 = Cli.Parsed o →
  flag ∈ ["-y"; "--assume_yes"; "-v"; "--verbose"] →
  name ∉ Cli.option_words →
  Cli.parse_args dedent valid text (before ++ flag :: name :: rest) o0
  = Cli.Exits [Print ("Error: unrecognized argument " ++ name);
               Print (dedent Cli.usage_source)]
              (Cli.ExitStatus 1).
Proof.
  intros Hbefore Hflag Hname.
  rewrite parse_args_app, Hbefore. simpl.
  assert (flag ∈ ["-y"; "--assume_yes"] ∨ flag ∈ ["-v"; "--verbose"])
    as [Hy | Hv] by (set_unfold; naive_solver).
  - rewrite parse_arg_yes by done. by rewrite parse_arg_name.
  - rewrite parse_arg_verbose by done. by rewrite parse_arg_name.
Qed.

Lemma option_ends_the_name_list_witness :
  Cli.parse_args (fun s => s) {["sda"; "sdb"]} "" (["-s"; "sda"] ++ "-y" :: "sdb" :: [])
                 Cli.initial
  = Cli.Exits [Print ("Error: unrecognized argument " ++ "sdb");
               Print Cli.usage_source]
              (Cli.ExitStatus 1).
Proof.
  apply (option_ends_the_name_list (fun s => s) {["sda"; "sdb"]} ""
           ["-s"; "sda"] [] "-y" "sdb" Cli.initial
           (Cli.Options false false {["sda"]} ∅ true false)).
  - vm_compute. reflexivity.
  - apply (bool_decide_unpack _). vm_compute. reflexivity.
  - apply (bool_decide_unpack _). vm_compute. reflexivity.
Defined.

(** After [-s], every following name that is a valid disk is added to
    the disks. *)
Lemma parse_disk_names dedent valid text ds : ∀ o,
  Cli.standard o = true →
  (∀ d, d ∈ ds → d ∈ valid ∧ d ∉ Cli.option_words) →
  Cli.parse_args dedent valid text ds o
  = Cli.Parsed (Cli.Options (Cli.assume_yes o) (Cli.verbose o)
                  (Cli.disks o ∪ list_to_set ds) (Cli.aliases o)
                  true (Cli.multipath o)).
Proof.
  induction ds as [|d ds IH]; intros o Hstd Hds; simpl.
  - destruct o as [y v dsk al st mp]. simpl in *. subst st.
    do 2 f_equal. set_solver.
  - destruct (Hds d) as [Hvalid Hname]; [set_solver |].
    rewrite parse_arg_name by done. rewrite Hstd.
    rewrite bool_decide_eq_true_2 by done.
    rewrite IH; [| done | intros d' Hd'; apply Hds; set_solver].
    simpl. do 2 f_equal. set_solver.
Qed.

(** After [-m], every following name that occurs in the listing is
    added to the aliases. *)
Lemma parse_alias_names dedent valid text als : ∀ o,
  Cli.standard o = false →
  Cli.multipath o = true →
  (∀ a, a ∈ als → accepted_alias text a = true ∧ a ∉ Cli.option_words) →
  Cli.parse_args dedent valid text als o
  = Cli.Parsed (Cli.Options (Cli.assume_yes o) (Cli.verbose o)
                  (Cli.disks o) (Cli.aliases o ∪ list_to_set als)
                  false true).
Proof.
  induction als as [|a als IH]; intros o Hstd Hmp Hals; simpl.
  - destruct o as [y v dsk al st mp]. simpl in *. subst st mp.
    do 2 f_equal. set_solver.
  - destruct (Hals a) as [Hacc Hname]; [set_solver |].
    rewrite parse_arg_name by done. rewrite Hstd, Hmp, Hacc.
    rewrite IH; [| done | done | intros a' Ha'; apply Hals; set_solver].
    simpl. do 2 f_equal. set_solver.
Qed.

(** X15.  Run as root with the arguments [-s d1 ... dn -m a1 ... am],
    after [-y] or not, where each [di] is an [sd] entry of [/sys/block]
    and each [aj] occurs in the multipath listing, [main] runs
    [delete_devices] on exactly these disks and aliases, with
    [assume_yes] set by [-y] and without verbosity. *)
Theorem main_deletes_selection (dedent : string → string)
    (h : host) (p : Cli.process) (prog text : string) (yes : bool)
    (ds als : list string) :
  Cli.uid p = 0%Z →
  query h cmd_multipath = Ok text →
  Cli.argv p
  = prog :: (if yes then ["-y"] else []) ++ "-s" :: ds ++ "-m" :: als →
  (∀ d, d ∈ ds → d ∈ Cli.sys_block p ∧ Cli.starts_sd d = true) →
  (∀ a, a ∈ als → accepted_alias text a = true ∧ a ∉ Cli.option_words) →
  ds ≠ [] ∨ als ≠ [] →
  Cli.main dedent h p
  = ((delete_devices h (list_to_set ds) (list_to_set als) yes false).1,
     Cli.Finished
       (delete_devices h (list_to_set ds) (list_to_set als) yes false).2).
Proof.
  intros Hroot Hq Hargv Hds Hals Hsome.
  unfold Cli.main. rewrite Hroot, Hq, Hargv.
  case_decide; [done |]. cbn [drop]. rewrite drop_0.
  assert (Cli.parse_args dedent (Cli.valid_disks (Cli.sys_block p)) text
            ((if yes then ["-y"] else []) ++ "-s" :: ds ++ "-m" :: als)
            Cli.initial
          = Cli.Parsed (Cli.Options yes false (list_to_set ds)
                          (list_to_set als) false true)) as ->.
  { rewrite parse_args_app.
    assert (Cli.parse_args dedent (Cli.valid_disks (Cli.sys_block p)) text
              (if yes then ["-y"] else []) Cli.initial
            = Cli.Parsed (Cli.Options yes false ∅ ∅ false false)) as ->.
    { destruct yes; [| done]. cbn [Cli.parse_args].
      rewrite parse_arg_yes; [done | set_solver]. }
    cbn [Cli.parse_args]. rewrite parse_arg_standard by set_solver.
    rewrite parse_args_app.
    rewrite parse_disk_names; [| done |].
    2: { intros d [? Hsd]%Hds. split; [by apply valid_disks_spec |].
         by apply starts_sd_not_option. }
    cbn [Cli.parse_args]. rewrite parse_arg_multipath by set_solver.
    rewrite parse_alias_names; [| done | done | done].
    simpl. f_equal. f_equal; set_solver. }
  simpl. case_decide as Hempty.
  - exfalso. destruct Hempty as [Hd Ha].
    destruct Hsome as [Hne | Hne]; apply Hne.
    + destruct ds as [|d ds']; [done |]. set_solver.
    + destruct als as [|a als']; [done |]. set_solver.
  - by destruct (delete_devices _ _ _ _ _).
Qed.

Lemma main_deletes_selection_witness :
  Cli.main (fun s => s) host_sample
    (root_process ["-y"; "-s"; "sdz"; "-m"; "testvol2"])
  = ((delete_devices host_sample (list_to_set ["sdz"])
        (list_to_set ["testvol2"]) true false).1,
     Cli.Finished
       (delete_devices host_sample (list_to_set ["sdz"])
          (list_to_set ["testvol2"]) true false).2).
Proof.
  apply (main_deletes_selection (fun s => s) host_sample
           (root_process ["-y"; "-s"; "sdz"; "-m"; "testvol2"])
           "delete_devices.py" (output_text host_sample cmd_multipath)
           true ["sdz"] ["testvol2"]).
  - reflexivity.
  - vm_compute. reflexivity.
  - reflexivity.
  - intros d ->%list_elem_of_singleton. split.
    + apply (bool_decide_unpack _). vm_compute. reflexivity.
    + reflexivity.
  - intros a ->%list_elem_of_singleton. split.
    + vm_compute. reflexivity.
    + apply (bool_decide_unpack _). vm_compute. reflexivity.
  - left. discriminate.
Defined.

(** ** More on the executor and on the names the collector reads *)

Lemma flush_loop_no_writes h l path data :
  WriteFile path data ∉ (for_all (flush_alias h) l).1.
Proof.
  intros Hin. pose proof (flush_loop_events h l) as Hev.
  rewrite Forall_forall in Hev.
  by destruct (Hev _ Hin eq_refl) as (a & _ & ?).
Qed.

Lemma delete_loop_no_calls h l cmd :
  Call cmd ∉ (for_all (delete_disk h) l).1.
Proof.
  intros Hin. pose proof (delete_loop_events h l) as Hev.
  rewrite Forall_forall in Hev.
  by destruct (Hev _ Hin) as (d & _ & [? | [? _]]).
Qed.

(** The flush loop stops at the first command that cannot be started. *)
Lemma flush_loop_raises h l :
  (∃ a, a ∈ l ∧ call h (flush_cmd a) = None) →
  ∃ ex, (for_all (flush_alias h) l).2 = Raise ex.
Proof.
  induction l as [|a l IH]; intros (b & Hb & Hnone).
  - by apply elem_of_nil in Hb.
  - rewrite for_all_cons.
    destruct (call h (flush_cmd a)) as [code|] eqn:Hcode.
    + assert (∃ ex, (for_all (flush_alias h) l).2 = Raise ex) as [ex Hex].
      { apply IH. exists b. split; [| done].
        apply elem_of_cons in Hb as [-> | Hb]; [congruence | done]. }
      destruct (for_all (flush_alias h) l) as [tr r]. simpl in Hex. subst r.
      unfold flush_alias. simpl. rewrite Hcode.
      destruct (decide (code ≠ 0%Z)); simpl; by eexists.
    + unfold flush_alias. simpl. rewrite Hcode. simpl. by eexists.
Qed.

(** X16.  The executor flushes before it deletes: what it does splits
    into a first part with no control-file write and a second part with
    no command; the second part starts only when the flush loop has come
    to its end. *)
Theorem flushes_come_before_writes (h : host) (assume_yes verbose : bool)
    (ds als : gset string) :
  ∃ first second,
    (execute h assume_yes verbose ds als).1 = (first ++ second)%list
    ∧ (∀ path data, WriteFile path data ∉ first)
    ∧ (∀ cmd, Call cmd ∉ second)
    ∧ ((∃ a, a ∈ als ∧ call h (flush_cmd a) = None) → second = []).
Proof.
  assert (∃ first second,
            (flush_and_delete h verbose ds als).1 = (first ++ second)%list
            ∧ (∀ path data, WriteFile path data ∉ first)
            ∧ (∀ cmd, Call cmd ∉ second)
            ∧ ((∃ a, a ∈ als ∧ call h (flush_cmd a) = None) → second = []))
    as Hrun.
  { unfold flush_and_delete. simpl.
    pose proof (flush_loop_no_writes h (elements als)) as Hflush.
    pose proof (flush_loop_raises h (elements als)) as Hraise.
    destruct (for_all (flush_alias h) (elements als)) as [tr1 [[]|ex]];
      simpl in *.
    - pose proof (delete_loop_no_calls h (elements ds)) as Hdelete.
      destruct (for_all (delete_disk h) (elements ds)) as [tr2 r2].
      simpl in *.
      exists (say verbose ("Flushing the following multipath devices: "
                           ++ join " " (elements als)) ++ tr1)%list,
             (say verbose ("Deleting the following disks: "
                           ++ join " " (elements ds)) ++ tr2)%list.
      split_and!.
      + by rewrite <- app_assoc.
      + intros path data [Hin | Hin]%elem_of_app; [| by eapply Hflush].
        destruct verbose; simpl in Hin; [| by apply elem_of_nil in Hin].
        by apply list_elem_of_singleton in Hin.
      + intros cmd [Hin | Hin]%elem_of_app; [| by eapply Hdelete].
        destruct verbose; simpl in Hin; [| by apply elem_of_nil in Hin].
        by apply list_elem_of_singleton in Hin.
      + intros (a & Ha%elem_of_elements & Hnone).
        destruct Hraise as [ex Hex]; [by exists a | done].
    - exists (say verbose ("Flushing the following multipath devices: "
                           ++ join " " (elements als)) ++ tr1)%list, [].
      split_and!; [by rewrite app_nil_r | | by intros cmd ?%elem_of_nil | done].
      intros path data [Hin | Hin]%elem_of_app; [| by eapply Hflush].
      destruct verbose; simpl in Hin; [| by apply elem_of_nil in Hin].
      by apply list_elem_of_singleton in Hin. }
  unfold execute. destruct assume_yes; [exact Hrun |].
  case_decide.
  { exists [], []. split_and!; [done | | | done];
      intros; by apply not_elem_of_nil. }
  simpl. destruct (raw_input h (warning_message ds als)) as [response|];
    simpl.
  - destruct (is_yes response); simpl.
    + destruct Hrun as (first & second & Heq & Hw & Hc & Hnone).
      destruct (flush_and_delete h verbose ds als) as [tr r].
      simpl in *. subst tr.
      exists (RawInput (warning_message ds als) :: first), second.
      split_and!; [done | | done | done].
      intros path data [? | Hin]%elem_of_cons; [done | by eapply Hw].
    + exists [RawInput (warning_message ds als)], [].
      split_and!; [done | | by intros cmd ?%elem_of_nil | done].
      by intros path data ?%list_elem_of_singleton.
  - exists [RawInput (warning_message ds als)], [].
    split_and!; [done | | by intros cmd ?%elem_of_nil | done].
    by intros path data ?%list_elem_of_singleton.
Qed.

Lemma many1_name p s name rest :
  many1 p s = Some (name, rest) → tok p name = true.
Proof. by intros (_ & ? & _)%many1_spec. Qed.

Lemma truthy_inv g x : truthy g = Some x → g = Some x.
Proof. destruct g as [[|c r]|]; simpl; congruence. Qed.

Lemma re_mounted_disk_name s x :
  re_mounted_disk s = Some x → tok is_alpha x = true.
Proof.
  unfold re_mounted_disk.
  destruct (lit "/dev/" s) as [r|]; cbn [mbind option_bind]; [| done].
  destruct (lit "mapper" r); [done |].
  destruct (many1 is_alpha r) as [[name rest]|] eqn:Hname;
    cbn [mbind option_bind]; [| done].
  intros [= <-]. by eapply many1_name.
Qed.

Lemma re_mounted_alias_name s x :
  re_mounted_alias s = Some x → tok is_word x = true.
Proof.
  unfold re_mounted_alias.
  destruct (lit "/dev/mapper/" s) as [r|]; cbn [mbind option_bind]; [| done].
  destruct (many1 is_word r) as [[name rest]|] eqn:Hname;
    cbn [mbind option_bind]; [| done].
  intros [= <-]. by eapply many1_name.
Qed.

(** X17.  The names the collector protects by itself: a name read from
    a bare-device line of the mount table or from the physical-volume
    listing is a non-empty string of letters, so it never carries a
    partition number; an alias read from a device-mapper line is a
    non-empty string of letters, digits and underscores. *)
Theorem protected_names_are_words (line x : string) :
  (mounted_disk line = Some x → tok is_alpha x = true)
  ∧ (lvm_disk line = Some x → tok is_alpha x = true)
  ∧ (mounted_alias line = Some x → tok is_word x = true).
Proof.
  split_and!.
  - unfold mounted_disk, re_mounted.
    destruct (re_mounted_disk (strip line)) as [d|] eqn:Hd;
      cbn [mbind option_bind disk_group].
    + intros [= <-]%truthy_inv. by eapply re_mounted_disk_name.
    + destruct (re_mounted_alias (strip line));
        cbn [mbind option_bind disk_group]; done.
  - unfold lvm_disk, re_lvm.
    destruct (lit "/dev/" (strip line)) as [r|];
      cbn [mbind option_bind]; [| done].
    destruct (many1 is_alpha r) as [[name rest]|] eqn:Hname;
      cbn [mbind option_bind]; [| done].
    intros [= <-]. by eapply many1_name.
  - unfold mounted_alias, re_mounted.
    destruct (re_mounted_disk (strip line)) as [d|] eqn:Hd;
      cbn [mbind option_bind disk_group alias_group].
    + apply re_mounted_disk_name, tok_inv in Hd as [Hne _].
      rewrite truthy_nonempty by done. done.
    + destruct (re_mounted_alias (strip line)) as [a|] eqn:Ha;
        cbn [mbind option_bind disk_group alias_group]; [| done].
      intros [= <-]%truthy_inv. by eapply re_mounted_alias_name.
Qed.

Lemma protected_names_are_words_witness : tok is_alpha "sda" = true.
Proof.
  apply (proj1 (protected_names_are_words "/dev/sda2" "sda")).
  vm_compute. reflexivity.
Defined.
